(** * The DHT walk engine of p2p/discover: a shallow embedding

    The development follows [p2p/discover/walk.go] and the route
    strategies that plug into it (fixed, lookup and random routes).
    Pointers to nodes ([*enode.Node]) are [option Node] ([None] is [nil]),
    Go maps are [gmap]s, slices are lists, and every method that mutates
    its receiver returns the new receiver. *)

From stdpp Require Import gmap list strings.

Local Open Scope Z_scope.

(** ** Constants of package discover *)

(** Modelled from the spec: [alpha], the Kademlia concurrency parameter,
    is declared with the table; its value is 3. *)
Definition alpha : Z := 3.

(** Modelled from the spec: [bucketSize], the size of a bucket and of the
    nearest-list of a lookup, is declared with the table; its value is 16. *)
Definition bucketSize : nat := 16.

(** Modelled from the spec: [lookupRequestLimit], the distance fan-out of
    a v5 FINDNODE request, is declared with the v5 transport; its value
    is 3. *)
Definition lookupRequestLimit : nat := 3.

Definition randomRouteBuffer : nat := 32.

(** ** Package enode: identifiers and nodes *)

Module enode.

(** A node identifier is a 256-bit value, read as a big-endian number. *)
Abbreviation ID := Z.

Definition validID (a : ID) : Prop := 0 <= a < 2 ^ 256.

(** Modelled from the spec: [enode.LogDist] is defined outside the files
    modelled here.  [logdist(a,b)] is [256 - leading_zero_bits(a XOR b)]
    when [a ≠ b], and [0] when [a = b]. *)
Definition leading_zero_bits (x : Z) : Z :=
  if decide (x = 0) then 256 else 256 - (Z.log2 x + 1).

Definition LogDist (a b : ID) : Z :=
  if decide (a = b) then 0 else 256 - leading_zero_bits (Z.lxor a b).

(** The engine reads only the identifier of a node; the record stands
    for the rest of the descriptor. *)
Record Node : Type := mkNode { ID_of : ID; record : Z }.

End enode.

Abbreviation Node := enode.Node.
Abbreviation nodeID := enode.ID_of.

(** ** lookupDistances *)

(** The loop [for i := 1; len(dists) < lookupRequestLimit; i++] of
    [lookupDistances].  The loop has no syntactic bound, hence the fuel;
    [None] means the fuel ran out before the loop condition failed.
    [td] is never negative and so is every appended value, which makes
    the conversions to [uint] the identity. *)
Fixpoint lookupDistances_loop (fuel : nat) (td i : Z) (dists : list Z)
  : option (list Z) :=
  if decide (length dists < lookupRequestLimit)%nat then
    match fuel with
    | O => None
    | S fuel' =>
        let dists1 := if decide (td + i <= 256) then dists ++ [td + i] else dists in
        let dists2 := if decide (td - i > 0) then dists1 ++ [td - i] else dists1 in
        lookupDistances_loop fuel' td (i + 1) dists2
    end
  else Some dists.

Definition lookupDistances_from (fuel : nat) (td : Z) : option (list Z) :=
  lookupDistances_loop fuel td 1 [td].

Definition lookupDistances (fuel : nat) (target dest : enode.ID) : option (list Z) :=
  lookupDistances_from fuel (enode.LogDist target dest).

(** The distance domain [(0, 256]]. *)
Definition in_distance_domain (d : Z) : bool := (0 <? d) && (d <=? 256).

(** The neighbours [td+1, td-1, td+2, td-2, ...] of [td], [n] pairs of them. *)
Definition neighbour_distances (td : Z) (n : nat) : list Z :=
  flat_map (fun i => [td + Z.of_nat i; td - Z.of_nat i]) (seq 1 n).

(** The policy in the words of the specification: the sequence
    [td, td+1, td-1, td+2, td-2, ...] truncated to [(0, 256]] and capped at
    [lookupRequestLimit] entries.  Offsets beyond 256 never fall in the
    domain, so 256 pairs of neighbours stand for the whole sequence. *)
Definition lookupDistances_spec (td : Z) : list Z :=
  take lookupRequestLimit
       (filter (fun d => in_distance_domain d = true) (td :: neighbour_distances td 256)).

(** What the code computes: [td] itself always comes first, unfiltered;
    only the neighbours are truncated to the domain. *)
Definition lookupDistances_code (td : Z) : list Z :=
  take lookupRequestLimit
       (td :: filter (fun d => in_distance_domain d = true) (neighbour_distances td 256)).

(** ** Collaborators of the walk *)

(** A source of randomness ([randomSource]): [Intn n] draws from [[0, n)]
    and [Read] fills a byte buffer of the given length.  Both advance the
    state of the source. *)
Class RandomSource (Rng : Type) : Type := {
  Intn : Rng -> Z -> Z * Rng;
  Read : Rng -> nat -> list Z * Rng;
  Intn_range : forall s n, 0 < n -> 0 <= (Intn s n).1 < n
}.

(** The payload attached to a query ([target any]): nothing (fixed route),
    a v4 public key (64 bytes), a node identifier (v5 lookup), or a list of
    bucket distances (v5 random walk). *)
Inductive Target : Type :=
| TargetNil
| TargetPubkey (key : list Z)
| TargetID (id : enode.ID)
| TargetDists (dists : list Z).

Record query : Type := mkQuery {
  target : Target;
  node : option Node;
  (* response fields *)
  err : option string;
  resp : list (option Node)
}.

(** One call of [Table.trackRequest]. *)
Record trackedRequest : Type := mkTracked {
  tracked_node : option Node;
  tracked_success : bool;
  tracked_found : list (option Node)
}.

(** Modelled from the spec: the routing table ([Table]) is an external
    collaborator defined outside the files modelled here.  The model
    keeps the local node, the nodes of the buckets, the table's random
    source and the liveness feedback received through [trackRequest]. *)
Record Table (Rng : Type) : Type := mkTable {
  self : Node;
  content : list Node;
  rand : Rng;
  tracked : list trackedRequest
}.
Arguments mkTable {Rng}.
Arguments self {Rng}.
Arguments content {Rng}.
Arguments rand {Rng}.
Arguments tracked {Rng}.

(** Modelled from the spec: [track_request(node, success, novel_nodes)] is
    liveness feedback; the model records the call. *)
Definition trackRequest {Rng} (tab : Table Rng) (n : option Node) (success : bool)
    (found : list (option Node)) : Table Rng :=
  mkTable (self tab) (content tab) (rand tab)
          (tracked tab ++ [mkTracked n success found]).

(** Modelled from the spec: [read_random_nodes(buf)] fills up to [len(buf)]
    nodes from the known buckets and returns how many; the result is the
    filled prefix of the buffer.  The order of [content] stands for the
    order the table happens to choose. *)
Definition readRandomNodes {Rng} (tab : Table Rng) (buflen : nat) : list (option Node) :=
  take buflen (Some <$> content tab).

(** The strategy interface of the walk.  Every method returns the updated
    route; [addFoundNodes] answers [None] when the call does not return. *)
Class Route (Rng R : Type) : Type := {
  init : R -> Table Rng -> R * bool;
  nextHop : R -> R * (option Node * Target);
  addFoundNodes : R -> list (option Node) -> option R;
  result : R -> list (option Node)
}.

(** ** The walk state machine *)

Record walk (Rng R : Type) : Type := mkWalk {
  tab : Table Rng;
  seen : gmap Z bool;
  replyBuffer : list (option Node);
  route : R;
  queries : Z;
  inited : bool
}.
Arguments mkWalk {Rng R}.
Arguments tab {Rng R}.
Arguments seen {Rng R}.
Arguments replyBuffer {Rng R}.
Arguments route {Rng R}.
Arguments queries {Rng R}.
Arguments inited {Rng R}.

(** Reading a [map[enode.ID]bool]: a missing key reads as [false]. *)
Definition seen_has (m : gmap Z bool) (id : enode.ID) : bool :=
  default false (m !! id).

(** The loop of [handleResponse] over [q.resp]: a non-nil node that is not
    yet seen is marked seen and appended to the reply buffer. *)
Fixpoint collectNovel (seen : gmap Z bool) (buffer : list (option Node))
    (resp : list (option Node)) : gmap Z bool * list (option Node) :=
  match resp with
  | [] => (seen, buffer)
  | None :: rest => collectNovel seen buffer rest
  | Some n :: rest =>
      if seen_has seen (nodeID n) then collectNovel seen buffer rest
      else collectNovel (<[nodeID n := true]> seen) (buffer ++ [Some n]) rest
  end.

Section Walk.
Context {Rng R : Type} `{!Route Rng R}.

Definition newWalk (tab : Table Rng) (r : R) : walk Rng R :=
  mkWalk tab {[ nodeID (self tab) := true ]} [] r 0 false.

(** The part of [advance] that follows the initialisation block. *)
Definition advance_hop (w : walk Rng R) : walk Rng R * (option query * bool) :=
  if decide (queries w >= alpha) then (w, (None, false))
  else
    let '(r', (n, tgt)) := nextHop (route w) in
    match n with
    | Some _ =>
        let queries' := queries w + 1 in
        (mkWalk (tab w) (seen w) (replyBuffer w) r' queries' (inited w),
         (Some (mkQuery tgt n None []), bool_decide (queries' = 0)))
    | None =>
        (mkWalk (tab w) (seen w) (replyBuffer w) r' (queries w) (inited w),
         (None, bool_decide (queries w = 0)))
    end.

Definition advance (w : walk Rng R) : walk Rng R * (option query * bool) :=
  if inited w then advance_hop w
  else
    let '(r', ok) := init (route w) (tab w) in
    if ok then
      advance_hop (mkWalk (tab w) (seen w) (replyBuffer w) r' (queries w) true)
    else
      (mkWalk (tab w) (seen w) (replyBuffer w) r' (queries w) (inited w),
       (None, true)).

Definition handleResponse (w : walk Rng R) (q : query) : option (walk Rng R) :=
  let '(seen', buffer) := collectNovel (seen w) [] (resp q) in
  match addFoundNodes (route w) buffer with
  | None => None
  | Some r' =>
      let success := bool_decide (0 < length (resp q))%nat in
      Some (mkWalk (trackRequest (tab w) (node q) success buffer)
                   seen' buffer r' (queries w - 1) (inited w))
  end.

End Walk.

(** ** The fixed route of the walk test *)

Module fixedRoute.

Definition t : Type := list (option Node).

Definition init {Rng} (r : t) (_ : Table Rng) : t * bool := (r, true).

Definition nextHop (r : t) : t * (option Node * Target) :=
  match r with
  | [] => (r, (None, TargetNil))
  | n :: rest => (rest, (n, TargetNil))
  end.

Definition addFoundNodes (r : t) (ns : list (option Node)) : option t := Some r.

Definition result (r : t) : list (option Node) := [].

End fixedRoute.

Global Instance fixedRoute_Route Rng : Route Rng fixedRoute.t := {
  init := fixedRoute.init;
  nextHop := fixedRoute.nextHop;
  addFoundNodes := fixedRoute.addFoundNodes;
  result := fixedRoute.result
}.

(** ** The random route *)

(** Indexing a slice of node pointers.  Go panics on an index out of
    range; every use below is guarded by a length test or draws the index
    with [Intn], which keeps it in range. *)
Definition at_index (l : list (option Node)) (i : Z) : option Node :=
  mjoin (l !! Z.to_nat i).

Module randomRoute.
Section randomRoute.
Context {Rng : Type} `{!RandomSource Rng}.

Record t : Type := mk { buf : list (option Node); rng : Rng }.

(** [init] points the route at the random source of the table
    ([r.rng = &tab.rand]) and fills the buffer from the table; the route
    is handed the state of that source.  In the code the route and the
    table then share the one source, so a draw of the route advances the
    source of the table as well; here the route carries the state on and
    [rand] of the table keeps the state read at [init], which nothing
    below reads again.  The slice [r.buf[:randomRouteBuffer]] panics for
    a buffer of smaller capacity; a route of [newRandomRouteV4] or
    [newRandomRouteV5] starts with a nil buffer and gets one of capacity
    [randomRouteBuffer] here, which [add] never outgrows. *)
Definition init (r : t) (tab : Table Rng) : t * bool :=
  let ns := readRandomNodes tab randomRouteBuffer in
  (mk ns (rand tab), bool_decide (0 < length ns)%nat).

(** nextNode selects the next hop and removes it from the buffer. *)
Definition nextNode (r : t) : t * option Node :=
  if decide (length (buf r) = 0%nat) then (r, None)
  else
    let '(index, rng') := Intn (rng r) (Z.of_nat (length (buf r))) in
    let n := at_index (buf r) index in
    (mk (delete (Z.to_nat index) (buf r)) rng', n).

Definition add (r : t) (n : option Node) : t :=
  if decide (length (buf r) < randomRouteBuffer)%nat then
    mk (buf r ++ [n]) (rng r)
  else
    let '(i, rng') := Intn (rng r) (Z.of_nat (length (buf r))) in
    mk (<[Z.to_nat i := n]> (buf r)) rng'.

(** The loop [for i2 == i1 { i2 = r.rng.Intn(len(ns)) }]: it ends at the
    first draw that differs from [i1], and spins as long as the source
    keeps repeating [i1]; [None] means that [fuel] draws all repeated it. *)
Fixpoint redraw (fuel : nat) (g : Rng) (n i1 i2 : Z) : option (Z * Rng) :=
  if decide (i2 = i1) then
    match fuel with
    | O => None
    | S fuel' => let '(i2', g') := Intn g n in redraw fuel' g' n i1 i2'
    end
  else Some (i2, g).

(** addFoundNodes adds two random nodes from the response to the route
    buffer. *)
Definition addFoundNodes (fuel : nat) (r : t) (ns : list (option Node)) : option t :=
  match length ns with
  | 0%nat => Some r
  | 1%nat => Some (add r (at_index ns 0))
  | _ =>
      let '(i1, g1) := Intn (rng r) (Z.of_nat (length ns)) in
      match redraw fuel g1 (Z.of_nat (length ns)) i1 i1 with
      | None => None
      | Some (i2, g2) =>
          Some (add (add (mk (buf r) g2) (at_index ns i1)) (at_index ns i2))
      end
  end.

Definition result (r : t) : list (option Node) := [].

(** randomRouteV4 is a random walk for discv4. *)
Record randomRouteV4 : Type := mkV4 { baseV4 : t }.

Definition newRandomRouteV4 (g : Rng) : randomRouteV4 := mkV4 (mk [] g).

Definition nextHopV4 (r : randomRouteV4) : randomRouteV4 * (option Node * Target) :=
  let '(r', n) := nextNode (baseV4 r) in
  match n with
  | Some _ =>
      let '(key, g') := Read (rng r') 64 in
      (mkV4 (mk (buf r') g'), (n, TargetPubkey key))
  | None => (mkV4 r', (None, TargetPubkey (replicate 64 0)))
  end.

(** randomRouteV5 is a random walk for discv5. *)
Record randomRouteV5 : Type := mkV5 { baseV5 : t }.

Definition newRandomRouteV5 (g : Rng) : randomRouteV5 := mkV5 (mk [] g).

Definition nextHopV5 (r : randomRouteV5) : randomRouteV5 * (option Node * Target) :=
  let '(r', n) := nextNode (baseV5 r) in
  (mkV5 r', (n, TargetDists [256; 255; 254; 253])).

End randomRoute.
Arguments t : clear implicits.
Arguments randomRouteV4 : clear implicits.
Arguments randomRouteV5 : clear implicits.
End randomRoute.

(** The two variants as routes; the methods other than [nextHop] are those
    of the embedded [randomRoute].  [fuel] bounds the redraw loop of
    [addFoundNodes]. *)
Definition randomRouteV4_Route {Rng} `{!RandomSource Rng} (fuel : nat)
  : Route Rng (randomRoute.randomRouteV4 Rng) := {|
  init r tab :=
    let '(b, ok) := randomRoute.init (randomRoute.baseV4 r) tab in (randomRoute.mkV4 b, ok);
  nextHop := randomRoute.nextHopV4;
  addFoundNodes r ns :=
    randomRoute.mkV4 <$> randomRoute.addFoundNodes fuel (randomRoute.baseV4 r) ns;
  result r := randomRoute.result (randomRoute.baseV4 r)
|}.

Definition randomRouteV5_Route {Rng} `{!RandomSource Rng} (fuel : nat)
  : Route Rng (randomRoute.randomRouteV5 Rng) := {|
  init r tab :=
    let '(b, ok) := randomRoute.init (randomRoute.baseV5 r) tab in (randomRoute.mkV5 b, ok);
  nextHop := randomRoute.nextHopV5;
  addFoundNodes r ns :=
    randomRoute.mkV5 <$> randomRoute.addFoundNodes fuel (randomRoute.baseV5 r) ns;
  result r := randomRoute.result (randomRoute.baseV5 r)
|}.

(** ** The lookup route *)

Module lookupRoute.

(** nodesByDistance is a list of nodes, ordered by distance to target.
    Its entries come from the table and from [push], which both hold
    non-nil nodes only. *)
Record nodesByDistance : Type := mkList { entries : list Node; list_target : enode.ID }.

(** Modelled from the spec: [nodesByDistance.push] is defined outside the
    files modelled here.  The bounded nearest-list is sorted ascending by
    [logdist(node.id, target)] and capped at capacity k; insertion is
    idempotent on the id; elements farther than the k-th are dropped;
    ties are broken by insertion order. *)
Fixpoint insertByDistance (tgt : enode.ID) (n : Node) (es : list Node) : list Node :=
  match es with
  | [] => [n]
  | e :: rest =>
      if decide (enode.LogDist (nodeID n) tgt < enode.LogDist (nodeID e) tgt)
      then n :: e :: rest
      else e :: insertByDistance tgt n rest
  end.

Definition push (h : nodesByDistance) (n : Node) (maxElems : nat) : nodesByDistance :=
  if existsb (fun e => bool_decide (nodeID e = nodeID n)) (entries h) then h
  else mkList (take maxElems (insertByDistance (list_target h) n (entries h)))
              (list_target h).

(** Modelled from the spec: [find_by_id(id, k, live_only)] answers the
    bounded nearest-list of size at most k of the table's nodes. *)
Definition findnodeByID {Rng} (tab : Table Rng) (tgt : enode.ID) (nresults : nat)
    (preferLive : bool) : nodesByDistance :=
  foldl (fun h n => push h n nresults) (mkList [] tgt) (content tab).

Record t : Type := mk {
  target : Target;
  list_ : nodesByDistance;
  asked : gmap Z bool
}.

(** [keyID] is [v4wire.Pubkey.ID], the hash of the key, which is defined
    outside the files modelled here. *)
Definition newLookupRouteV4 (keyID : list Z -> enode.ID) (tgt : list Z) : t :=
  mk (TargetPubkey tgt) (mkList [] (keyID tgt)) ∅.

Definition newLookupRouteV5 (tgt : enode.ID) : t :=
  mk (TargetID tgt) (mkList [] tgt) ∅.

Definition init {Rng} (l : t) (tab : Table Rng) : t * bool :=
  let closest := findnodeByID tab (list_target (list_ l)) bucketSize false in
  if decide (length (entries closest) = 0%nat) then (l, false)
  else (mk (target l) (mkList (entries closest) (list_target (list_ l))) ∅, true).

(** The first entry of the list that was not asked yet; the [asked] map
    of a new route is nil and reads as the empty map. *)
Fixpoint firstUnasked (asked : gmap Z bool) (es : list Node) : option Node :=
  match es with
  | [] => None
  | n :: rest => if seen_has asked (nodeID n) then firstUnasked asked rest else Some n
  end.

(** [nextHop] writes to the [asked] map when it finds an entry.  Before
    [init] succeeded the map is nil, and a write to a nil map panics; the
    list of such a route is empty unless [addFoundNodes] ran first, which
    a walk never does.  The model keeps one map for both, so it follows
    the code on the routes [init] has initialised ([lookupInited] below)
    and on routes with an empty list. *)
Definition nextHop (l : t) : t * (option Node * Target) :=
  match firstUnasked (asked l) (entries (list_ l)) with
  | Some n => (mk (target l) (list_ l) (<[nodeID n := true]> (asked l)), (Some n, target l))
  | None => (l, (None, target l))
  end.

(** [push] reads the id of its argument: a nil node makes the call
    panic, which is the answer [None]. *)
Fixpoint pushAll (h : nodesByDistance) (ns : list (option Node)) : option nodesByDistance :=
  match ns with
  | [] => Some h
  | None :: _ => None
  | Some n :: rest => pushAll (push h n bucketSize) rest
  end.

Definition addFoundNodes (l : t) (ns : list (option Node)) : option t :=
  match pushAll (list_ l) ns with
  | Some h => Some (mk (target l) h (asked l))
  | None => None
  end.

Definition result (l : t) : list (option Node) := Some <$> entries (list_ l).

End lookupRoute.

Global Instance lookupRoute_Route Rng : Route Rng lookupRoute.t := {
  init := lookupRoute.init;
  nextHop := lookupRoute.nextHop;
  addFoundNodes := lookupRoute.addFoundNodes;
  result := lookupRoute.result
}.

(** ** Runs of a walk *)

(** What the owner of a walk observes: the outcome of an [advance] call, or
    a completed query handed to [handleResponse] together with the reply
    buffer that call forwarded to [route.addFoundNodes]. *)
Inductive event : Type :=
| Advanced (q : option query) (done : bool)
| Handled (q : query) (forwarded : list (option Node)).

(** The identifiers of the non-nil entries of a slice of node pointers. *)
Definition ptr_ids (l : list (option Node)) : list enode.ID :=
  omap (fun p : option Node => nodeID <$> p) l.

(** All nodes forwarded to the route so far, oldest first. *)
Definition forwarded_nodes (h : list event) : list (option Node) :=
  flat_map (fun e => match e with Handled _ fw => fw | Advanced _ _ => [] end) h.

(** All response entries handled so far, oldest first. *)
Definition response_nodes (h : list event) : list (option Node) :=
  flat_map (fun e => match e with Handled q _ => resp q | Advanced _ _ => [] end) h.

(** All hops emitted so far, oldest first. *)
Definition hop_nodes (h : list event) : list (option Node) :=
  flat_map (fun e => match e with Advanced (Some q) _ => [node q] | _ => [] end) h.

Section Runs.
Context {Rng R : Type} `{!Route Rng R}.

(** [reachable tab0 r0 w pending h]: the walk created by
    [newWalk tab0 r0] can be in state [w] after the calls recorded in
    [h] (oldest first), with the queries [pending] emitted and not yet
    handled.  A handled query is a pending one whose response fields
    were filled in by the transport. *)
Inductive reachable (tab0 : Table Rng) (r0 : R)
  : walk Rng R -> list query -> list event -> Prop :=
| reach_new : reachable tab0 r0 (newWalk tab0 r0) [] []
| reach_advance w pending h w' oq done :
    reachable tab0 r0 w pending h ->
    advance w = (w', (oq, done)) ->
    reachable tab0 r0 w' (pending ++ option_list oq) (h ++ [Advanced oq done])
| reach_handle w p1 q0 p2 h q w' :
    reachable tab0 r0 w (p1 ++ q0 :: p2) h ->
    node q = node q0 ->
    target q = target q0 ->
    handleResponse w q = Some w' ->
    reachable tab0 r0 w' (p1 ++ p2) (h ++ [Handled q (replyBuffer w')]).

End Runs.

(** ** A deterministic random source for the examples *)

Lemma counter_draw_range (s n : Z) : 0 < n -> 0 <= (s `mod` n, s + 1).1 < n.
Proof. intros Hn. simpl. apply Z.mod_pos_bound. exact Hn. Qed.

(** The k-th draw of the counter source is [k mod n]. *)
Global Instance counterSource : RandomSource Z := {|
  Intn s n := (s `mod` n, s + 1);
  Read s len := (replicate len (s `mod` 256), s + 1);
  Intn_range := counter_draw_range
|}.

(** Nodes and tables of the examples. *)
Definition testNode (i : Z) : Node := enode.mkNode i 0.
Definition testTable (ns : list Node) : Table Z := mkTable (testNode 0) ns 0 [].
Definition emptyQuery (n : Node) : query := mkQuery TargetNil (Some n) None [].

(** ** Runs of a random route *)

Section RandomRouteRuns.
Context {Rng : Type} `{!RandomSource Rng}.

(** The state of the source after [k] draws below [bound]. *)
Fixpoint afterDraws (k : nat) (g : Rng) (bound : Z) : Rng :=
  match k with
  | O => g
  | S k' => afterDraws k' (Intn g bound).2 bound
  end.

(** The route states that [init], [nextNode], [add] and
    [addFoundNodes] can produce from a new random route. *)
Inductive reachableRoute : randomRoute.t Rng -> Prop :=
| route_new g : reachableRoute (randomRoute.mk [] g)
| route_init r tab : reachableRoute r -> reachableRoute (randomRoute.init r tab).1
| route_nextNode r : reachableRoute r -> reachableRoute (randomRoute.nextNode r).1
| route_add r n : reachableRoute r -> reachableRoute (randomRoute.add r n)
| route_addFoundNodes fuel r ns r' :
    reachableRoute r ->
    randomRoute.addFoundNodes fuel r ns = Some r' ->
    reachableRoute r'.

End RandomRouteRuns.

(** The nodes a lookup route may still answer as a hop. *)
Definition lookupHeld (l : lookupRoute.t) : list (option Node) :=
  Some <$> lookupRoute.entries (lookupRoute.list_ l).

(** ** Checks and examples *)

(** The check that two rounds of the loop compute [lookupDistances_code]
    at distance [n]. *)
Definition lookupDistances_check (n : nat) : bool :=
  bool_decide (lookupDistances_from 2 (Z.of_nat n)
               = Some (lookupDistances_code (Z.of_nat n))).

(** The fixed route of the walk test, [N1, N2, N3, N4]. *)
Definition exampleRoute : fixedRoute.t :=
  [Some (testNode 1); Some (testNode 2); Some (testNode 3); Some (testNode 4)].

Definition exampleWalk0 : walk Z fixedRoute.t := newWalk (testTable []) exampleRoute.

(** After the first [advance], which emits the query for [N1]. *)
Definition exampleWalk1 : walk Z fixedRoute.t := (advance exampleWalk0).1.

(** The query for [N1] as a transport may complete it: an error is set,
    and the response names node 7 twice, a nil entry and the local node. *)
Definition exampleReply : query :=
  mkQuery TargetNil (Some (testNode 1)) (Some "timeout"%string)
          [Some (testNode 7); None; Some (enode.mkNode 7 1); Some (testNode 0)].

Definition exampleWalk2 : walk Z fixedRoute.t :=
  default exampleWalk1 (handleResponse exampleWalk1 exampleReply).

Definition exampleHistory1 : list event :=
  [Advanced (Some (emptyQuery (testNode 1))) false].

Definition exampleHistory2 : list event :=
  exampleHistory1 ++ [Handled exampleReply [Some (testNode 7)]].

(** Completing the query that an [advance] call answered, its response
    fields left as they were emitted, as the walk test does. *)
Definition complete {Rng R : Type} `{!Route Rng R} (w : walk Rng R)
    (answer : option query * bool) : option (walk Rng R) :=
  match answer.1 with
  | Some q => handleResponse w q
  | None => None
  end.

(** The scenario of the walk test: three [advance] calls, the three
    queries completed in the order third, first, second, one more
    [advance], its query completed, and a last [advance].  The result is
    the list of what the five [advance] calls answered. *)
Definition outOfOrderScenario {Rng : Type} (tab0 : Table Rng) (n1 n2 n3 n4 : Node)
  : option (list (option query * bool)) :=
  let w := newWalk tab0 ([Some n1; Some n2; Some n3; Some n4] : fixedRoute.t) in
  let '(w, a0) := advance w in
  let '(w, a1) := advance w in
  let '(w, a2) := advance w in
  w ← complete w a2;
  w ← complete w a0;
  w ← complete w a1;
  let '(w, a3) := advance w in
  w ← complete w a3;
  let '(w, a4) := advance w in
  Some [a0; a1; a2; a3; a4].

(** A random route initialised from a table of three nodes, with the
    counter source. *)
Definition exampleRandomRoute : randomRoute.t Z :=
  (randomRoute.init (randomRoute.mk [] 0)
     (testTable [testNode 1; testNode 2; testNode 3])).1.

(** A table of two nodes, neither of which is the local node. *)
Definition exampleTable : Table Z := testTable [testNode 1; testNode 2].

(** ** What a run reports to the table *)

(** The calls of [Table.trackRequest] a run makes, oldest first: one for
    every handled query, carrying the queried node, the success flag and
    the forwarded buffer. *)
Definition reports (h : list event) : list trackedRequest :=
  flat_map (fun e =>
              match e with
              | Handled q fw =>
                  [mkTracked (node q) (bool_decide (0 < length (resp q))%nat) fw]
              | Advanced _ _ => []
              end) h.

(** A lookup for id 9 over the example table, before and after its first
    [advance]. *)
Definition exampleLookupWalk0 : walk Z lookupRoute.t :=
  newWalk exampleTable (lookupRoute.newLookupRouteV5 9).

Definition exampleLookupWalk1 : walk Z lookupRoute.t := (advance exampleLookupWalk0).1.

Definition exampleLookupHistory1 : list event :=
  [Advanced (advance exampleLookupWalk0).2.1 (advance exampleLookupWalk0).2.2].

(** The check that at distance [n] the distances [lookupDistances_code]
    names are three, pairwise distinct, start with [n] and stay within
    [[0, 256]] and within two steps of [n]. *)
Definition lookupDistances_shape (td : Z) (l : list Z) : Prop :=
  length l = lookupRequestLimit
  /\ NoDup l
  /\ head l = Some td
  /\ Forall (fun d => 0 <= d <= 256 /\ td - 2 <= d <= td + 2) l.

Definition lookupDistances_shape_check (n : nat) : bool :=
  bool_decide (lookupDistances_shape (Z.of_nat n) (lookupDistances_code (Z.of_nat n))).

(** ** The simulated network of the route tests *)

Module routeSim.
Section routeSim.

(** The number of buckets and the distance below which buckets collapse
    are constants declared with the table, outside the files modelled
    here; they are parameters of the simulation. *)
Variables (nBuckets : nat) (bucketMinDistance : Z).

(** routeSimKad is a Kademlia table for use in routeSim.  [buckets] is an
    array of [nBuckets] slices; [add] and [addNode] read the id of the
    nodes they store, so neither [self] nor a bucket entry is nil. *)
Record routeSimKad : Type := mkKad { self : Node; buckets : list (list Node) }.

(** routeSim can simulate routing in a fake network.  The [table] field
    is not read by the functions modelled here. *)
Record t : Type := mk { network : gmap Z routeSimKad; ids : list Z }.

(** The index [bucket] computes for the distance [d], a [uint]. *)
Definition bucketIndex (d : Z) : Z :=
  if decide (d <= bucketMinDistance) then 0 else d - bucketMinDistance - 1.

(** [bucket] answers a pointer into the array of buckets; indexing the
    array out of range panics, which is the answer [None]. *)
Definition bucket (kad : routeSimKad) (d : Z) : option (list Node) :=
  buckets kad !! Z.to_nat (bucketIndex d).

Definition addNode (kad : routeSimKad) (n : Node) : option (routeSimKad * bool) :=
  let d := enode.LogDist (nodeID n) (nodeID (self kad)) in
  if decide (d = 0) then Some (kad, false)
  else
    match bucket kad d with
    | None => None
    | Some b =>
        if decide (bucketSize <= length b)%nat then Some (kad, false)
        else if existsb (fun e => bool_decide (nodeID e = nodeID n)) b
             then Some (kad, false)
             else Some (mkKad (self kad)
                              (<[Z.to_nat (bucketIndex d) := b ++ [n]]> (buckets kad)),
                        true)
    end.

(** The inner loop of [getBucketNodes] over one bucket; the flag tells
    that the function returned from inside the loop. *)
Fixpoint takeInto (result : list Node) (n : Z) (nodes : list Node) : list Node * bool :=
  match nodes with
  | [] => (result, false)
  | x :: rest =>
      if decide (Z.of_nat (length result) >= n) then (result, true)
      else takeInto (result ++ [x]) n rest
  end.

Fixpoint getBucketNodes_loop (kad : routeSimKad) (result : list Node) (n : Z)
    (bd : list Z) : option (list Node) :=
  match bd with
  | [] => Some result
  | d :: rest =>
      match bucket kad d with
      | None => None
      | Some b =>
          let '(result', returned) := takeInto result n b in
          if returned then Some result' else getBucketNodes_loop kad result' n rest
      end
  end.

(** [make([]*enode.Node, 0, n)] panics for a negative [n]. *)
Definition getBucketNodes (kad : routeSimKad) (bd : list Z) (n : Z) : option (list Node) :=
  if decide (n < 0) then None else getBucketNodes_loop kad [] n bd.

(** closest returns the closest known nodes to the given ID. *)
Definition closest (kad : routeSimKad) (id : enode.ID) (n : Z) : list Node :=
  lookupRoute.entries
    (foldl (fun h x => lookupRoute.push h x (Z.to_nat n))
           (lookupRoute.mkList [] id) (concat (buckets kad))).

(** add creates a node in the simulated network; it panics when the id
    is taken. *)
Definition add (rs : t) (n : Node) : option t :=
  match network rs !! nodeID n with
  | Some _ => None
  | None => Some (mk (<[nodeID n := mkKad n (replicate nBuckets [])]> (network rs))
                     (ids rs))
  end.

(** connect registers n2 in n1's table.  A missing table is a nil pointer,
    whose use panics. *)
Definition connect (rs : t) (n1 n2 : enode.ID) : option t :=
  if decide (n1 = n2) then None
  else
    match network rs !! n1, network rs !! n2 with
    | Some tab1, Some kad2 =>
        match addNode tab1 (self kad2) with
        | Some (tab1', _) => Some (mk (<[n1 := tab1']> (network rs)) (ids rs))
        | None => None
        end
    | _, _ => None
    end.

(** crossConnect registers two nodes with each other. *)
Definition crossConnect (rs : t) (n1 n2 : enode.ID) : option t :=
  match connect rs n1 n2 with
  | Some rs' => connect rs' n2 n1
  | None => None
  end.

(** runLookupQuery implements walkTransport.  [keyID] is
    [v4wire.Pubkey.ID].  A query without a node makes the call panic. *)
Definition runLookupQuery (keyID : list Z -> enode.ID) (rs : t) (q : query)
  : option query :=
  match node q with
  | None => None
  | Some n =>
      match network rs !! nodeID n with
      | None => Some (mkQuery (target q) (node q) (Some "node not found"%string) (resp q))
      | Some kad =>
          match target q with
          | TargetDists dists =>
              match getBucketNodes kad dists (Z.of_nat bucketSize) with
              | Some ns => Some (mkQuery (target q) (node q) (err q) (Some <$> ns))
              | None => None
              end
          | TargetPubkey key =>
              Some (mkQuery (target q) (node q) (err q)
                      (Some <$> closest kad (keyID key) (Z.of_nat bucketSize)))
          | _ => Some q
          end
      end
  end.

(** Indexing [rs.ids] with an [int]; a negative index or one beyond the
    length panics. *)
Definition idAt (l : list Z) (i : Z) : option Z :=
  if decide (i < 0) then None else l !! Z.to_nat i.

Section connectNodes.
Context {Rng : Type} `{!RandomSource Rng}.

(** The loops [for i := 1; i < 16; i++] of the connect phase of
    [newRouteSim]; [offset] is [index - i] on the left side and
    [index + i] on the right side, and [%] is the remainder of Go, which
    has the sign of the dividend. *)
Fixpoint connectSide (rs : t) (id : enode.ID) (offset : Z -> Z) (steps : list Z)
  : option t :=
  match steps with
  | [] => Some rs
  | i :: rest =>
      let ni := Z.rem (offset i) (Z.of_nat (length (ids rs))) in
      match idAt (ids rs) ni with
      | None => None
      | Some n2 =>
          match crossConnect rs id n2 with
          | Some rs' => connectSide rs' id offset rest
          | None => None
          end
      end
  end.

(** The loop over the random neighbours: a draw of the node itself is
    retried ([i--]), so the loop has no bound of its own; [None] is a
    panic or the fuel running out. *)
Fixpoint connectRandom (fuel : nat) (rs : t) (g : Rng) (id : enode.ID)
    (remaining : nat) : option (t * Rng) :=
  match remaining with
  | O => Some (rs, g)
  | S remaining' =>
      match fuel with
      | O => None
      | S fuel' =>
          let '(k, g') := Intn g (Z.of_nat (length (ids rs))) in
          match idAt (ids rs) k with
          | None => None
          | Some n2 =>
              if decide (n2 = id) then connectRandom fuel' rs g' id remaining
              else
                match crossConnect rs id n2 with
                | Some rs' => connectRandom fuel' rs' g' id remaining'
                | None => None
                end
          end
      end
  end.

Fixpoint connectFrom (fuel : nat) (rs : t) (g : Rng) (index : Z) (todo : list Z)
  : option (t * Rng) :=
  match todo with
  | [] => Some (rs, g)
  | id :: rest =>
      let steps := Z.of_nat <$> seq 1 15 in
      match connectSide rs id (fun i => index - i) steps with
      | None => None
      | Some rs1 =>
          match connectSide rs1 id (fun i => index + i) steps with
          | None => None
          | Some rs2 =>
              match connectRandom fuel rs2 g id 10 with
              | None => None
              | Some (rs3, g') => connectFrom fuel rs3 g' (index + 1) rest
              end
          end
      end
  end.

(** The connect phase of [newRouteSim], run on the sorted ids. *)
Definition connectNodes (fuel : nat) (rs : t) (g : Rng) : option (t * Rng) :=
  connectFrom fuel rs g 0 (ids rs).

End connectNodes.

(** The tables [addNode] can build for the node [n]. *)
Inductive kadReachable (n : Node) : routeSimKad -> Prop :=
| kad_new : kadReachable n (mkKad n (replicate nBuckets []))
| kad_addNode kad x kad' ok :
    kadReachable n kad -> addNode kad x = Some (kad', ok) -> kadReachable n kad'.

End routeSim.
End routeSim.

(** A simulated network is well formed when every table is filed under
    the id of its own node and was built by [addNode]. *)
Definition networkOk (nBuckets : nat) (bucketMinDistance : Z) (rs : routeSim.t) : Prop :=
  forall id kad,
    routeSim.network rs !! id = Some kad ->
    nodeID (routeSim.self kad) = id
    /\ routeSim.kadReachable nBuckets bucketMinDistance (routeSim.self kad) kad.

(** Examples with 17 buckets that collapse at distance 239: the table of
    node 0 after it learnt of the nodes 1 and 2^255, and an empty
    network. *)
Definition exampleKad0 : routeSim.routeSimKad :=
  routeSim.mkKad (testNode 0) (replicate 17 []).

Definition exampleKad1 : routeSim.routeSimKad :=
  default exampleKad0 (fst <$> routeSim.addNode 239 exampleKad0 (testNode 1)).

Definition exampleKad : routeSim.routeSimKad :=
  default exampleKad1 (fst <$> routeSim.addNode 239 exampleKad1 (testNode (2 ^ 255))).

Definition exampleSim : routeSim.t := routeSim.mk ∅ [].

(** The lookup of the example carried on: the queries for the nodes 1 and
    2 are emitted, then completed with empty responses. *)
Definition exampleLookupQuery (i : Z) : query :=
  mkQuery (TargetID 9) (Some (testNode i)) None [].

Definition exampleLookupWalk2 : walk Z lookupRoute.t := (advance exampleLookupWalk1).1.

Definition exampleLookupWalk3 : walk Z lookupRoute.t :=
  default exampleLookupWalk2 (handleResponse exampleLookupWalk2 (exampleLookupQuery 1)).

Definition exampleLookupWalk4 : walk Z lookupRoute.t :=
  default exampleLookupWalk3 (handleResponse exampleLookupWalk3 (exampleLookupQuery 2)).

Definition exampleLookupHistory4 : list event :=
  [Advanced (Some (exampleLookupQuery 1)) false;
   Advanced (Some (exampleLookupQuery 2)) false;
   Handled (exampleLookupQuery 1) [];
   Handled (exampleLookupQuery 2) []].

(** The network of the one node 1, which knows nobody. *)
Definition exampleSim1 : routeSim.t :=
  default exampleSim (routeSim.add 17 exampleSim (testNode 1)).

(** All queries handled so far, oldest first. *)
Definition handled_queries (h : list event) : list query :=
  flat_map (fun e => match e with Handled q _ => [q] | Advanced _ _ => [] end) h.

(** The fixed-route walk after two [advance] calls and the completion of
    the first query: the query for [N2] is still in flight. *)
Definition exampleWalk1b : walk Z fixedRoute.t := (advance exampleWalk1).1.

Definition exampleWalk3 : walk Z fixedRoute.t :=
  default exampleWalk1b (handleResponse exampleWalk1b exampleReply).

Definition exampleHistory3 : list event :=
  [Advanced (Some (emptyQuery (testNode 1))) false;
   Advanced (Some (emptyQuery (testNode 2))) false;
   Handled exampleReply [Some (testNode 7)]].

(** The table [kad] has registered the id: the bucket for the distance of
    the id holds a node of that id, or has no room left. *)
Definition knows (bucketMinDistance : Z) (kad : routeSim.routeSimKad) (id : enode.ID)
  : Prop :=
  exists b,
    routeSim.bucket bucketMinDistance kad
      (enode.LogDist id (nodeID (routeSim.self kad))) = Some b
    /\ (id ∈ nodeID <$> b \/ (bucketSize <= length b)%nat).

(** The network of the nodes 1 and 2, which know nobody yet. *)
Definition exampleSim2 : routeSim.t :=
  default exampleSim1 (routeSim.add 17 exampleSim1 (testNode 2)).

(** The lookup routes whose [asked] map was made: the routes a
    successful [init] leaves, and what [nextHop] and [addFoundNodes] make
    of them. *)
Inductive lookupInited : lookupRoute.t -> Prop :=
| lookupInited_init {Rng : Type} (l : lookupRoute.t) (tab : Table Rng) (l' : lookupRoute.t) :
    lookupRoute.init l tab = (l', true) -> lookupInited l'
| lookupInited_nextHop (l l' : lookupRoute.t) (hop : option Node) (tgt : Target) :
    lookupInited l -> lookupRoute.nextHop l = (l', (hop, tgt)) -> lookupInited l'
| lookupInited_addFoundNodes (l l' : lookupRoute.t) (ns : list (option Node)) :
    lookupInited l -> lookupRoute.addFoundNodes l ns = Some l' -> lookupInited l'.

(** * Properties *)

(** ** Log distance and [lookupDistances] *)

Lemma LogDist_range (a b : enode.ID) :
  enode.validID a -> enode.validID b -> 0 <= enode.LogDist a b <= 256.
Proof.
  intros [Ha0 Ha] [Hb0 Hb]. unfold enode.LogDist, enode.leading_zero_bits.
  case_decide; [lia |]. case_decide as Hx.
  - apply Z.lxor_eq in Hx. contradiction.
  - assert (0 <= Z.lxor a b) by (apply Z.lxor_nonneg; tauto).
    pose proof (Z.log2_nonneg (Z.lxor a b)).
    pose proof (Z.log2_lxor a b Ha0 Hb0) as Hmax.
    assert (Z.log2 a < 256).
    { destruct (decide (a = 0)) as [-> | ?]; [reflexivity |].
      apply Z.log2_lt_pow2; lia. }
    assert (Z.log2 b < 256).
    { destruct (decide (b = 0)) as [-> | ?]; [reflexivity |].
      apply Z.log2_lt_pow2; lia. }
    lia.
Qed.

Lemma LogDist_distinct (a b : enode.ID) :
  enode.validID a -> enode.validID b -> a <> b -> 1 <= enode.LogDist a b.
Proof.
  intros [Ha0 _] [Hb0 _] Hne. unfold enode.LogDist, enode.leading_zero_bits.
  case_decide; [contradiction |]. case_decide as Hx.
  - apply Z.lxor_eq in Hx. contradiction.
  - pose proof (Z.log2_nonneg (Z.lxor a b)). lia.
Qed.

(** More fuel never changes the answer of the loop. *)
Lemma lookupDistances_loop_fuel (fuel : nat) :
  forall td i dists out,
    lookupDistances_loop fuel td i dists = Some out ->
    lookupDistances_loop (S fuel) td i dists = Some out.
Proof.
  induction fuel as [| fuel IH]; intros td i dists out.
  - simpl. case_decide; [discriminate | trivial].
  - intros H. cbn [lookupDistances_loop] in H |- *.
    destruct (decide (length dists < lookupRequestLimit)%nat); [| exact H].
    apply IH in H. exact H.
Qed.

Lemma lookupDistances_from_fuel (fuel fuel' : nat) (td : Z) (out : list Z) :
  (fuel <= fuel')%nat ->
  lookupDistances_from fuel td = Some out ->
  lookupDistances_from fuel' td = Some out.
Proof.
  unfold lookupDistances_from. induction 1 as [| m _ IH]; [trivial |].
  intros H. apply lookupDistances_loop_fuel, IH, H.
Qed.

(** Two rounds of the loop are enough on the whole range of [LogDist],
    checked distance by distance. *)
Lemma lookupDistances_check_all :
  forallb lookupDistances_check (seq 0 257) = true.
Proof. vm_compute. reflexivity. Qed.

Lemma lookupDistances_from_code (fuel : nat) (td : Z) :
  0 <= td <= 256 -> (2 <= fuel)%nat ->
  lookupDistances_from fuel td = Some (lookupDistances_code td).
Proof.
  intros Htd Hfuel. apply (lookupDistances_from_fuel 2); [exact Hfuel |].
  pose proof lookupDistances_check_all as Hall.
  rewrite forallb_forall in Hall.
  specialize (Hall (Z.to_nat td)).
  unfold lookupDistances_check in Hall.
  rewrite Z2Nat.id in Hall by lia.
  eapply bool_decide_eq_true_1. apply Hall, in_seq. lia.
Qed.

Lemma lookupDistances_code_spec (td : Z) :
  0 < td <= 256 -> lookupDistances_code td = lookupDistances_spec td.
Proof.
  intros Htd. unfold lookupDistances_code, lookupDistances_spec.
  rewrite filter_cons_True; [reflexivity |].
  unfold in_distance_domain. apply andb_true_intro.
  split; [apply Z.ltb_lt | apply Z.leb_le]; lia.
Qed.

Lemma lookupDistances_spec_domain (td : Z) :
  Forall (fun d => 0 < d <= 256) (lookupDistances_spec td).
Proof.
  unfold lookupDistances_spec. apply Forall_take, Forall_forall.
  intros d Hd. apply list_elem_of_filter in Hd as [Hd _].
  unfold in_distance_domain in Hd. apply andb_prop in Hd as [H1 H2].
  apply Z.ltb_lt in H1. apply Z.leb_le in H2. lia.
Qed.

(** C4, as the code has it: with [td = logdist(target, dest)], two rounds
    of the loop suffice and [lookupDistances] answers [td] followed by the
    neighbours [td+1, td-1, td+2, td-2, ...] that lie in [(0, 256]], three
    entries in all.  When [target ≠ dest] this is the sequence
    [td, td+1, td-1, ...] truncated to [(0, 256]] and capped at
    [lookupRequestLimit], every entry lies in [(0, 256]], and for
    [td = 255] the answer is [255, 256, 254]. *)
Theorem lookupDistances_adjacent (fuel : nat) (target dest : enode.ID) :
  enode.validID target -> enode.validID dest -> (2 <= fuel)%nat ->
  lookupDistances fuel target dest
    = Some (lookupDistances_code (enode.LogDist target dest))
  /\ (target <> dest ->
      lookupDistances fuel target dest
        = Some (lookupDistances_spec (enode.LogDist target dest))
      /\ Forall (fun d => 0 < d <= 256)
                (lookupDistances_code (enode.LogDist target dest)))
  /\ (enode.LogDist target dest = 255 ->
      lookupDistances fuel target dest = Some [255; 256; 254]).
Proof.
  intros Ht Hd Hfuel.
  pose proof (LogDist_range target dest Ht Hd) as Hrange.
  assert (Hcode : lookupDistances fuel target dest
                  = Some (lookupDistances_code (enode.LogDist target dest))).
  { unfold lookupDistances. apply lookupDistances_from_code; assumption. }
  split; [exact Hcode |]. split.
  - intros Hne. pose proof (LogDist_distinct target dest Ht Hd Hne) as Hpos.
    rewrite Hcode, lookupDistances_code_spec by lia.
    split; [reflexivity | apply lookupDistances_spec_domain].
  - intros H255. rewrite Hcode, H255. reflexivity.
Qed.

Lemma lookupDistances_adjacent_witness :
  lookupDistances 2 0 (2 ^ 254)
    = Some (lookupDistances_code (enode.LogDist 0 (2 ^ 254)))
  /\ (0 <> 2 ^ 254 ->
      lookupDistances 2 0 (2 ^ 254)
        = Some (lookupDistances_spec (enode.LogDist 0 (2 ^ 254)))
      /\ Forall (fun d => 0 < d <= 256)
                (lookupDistances_code (enode.LogDist 0 (2 ^ 254))))
  /\ (enode.LogDist 0 (2 ^ 254) = 255 ->
      lookupDistances 2 0 (2 ^ 254) = Some [255; 256; 254]).
Proof.
  apply (lookupDistances_adjacent 2 0 (2 ^ 254)).
  - unfold enode.validID. lia.
  - unfold enode.validID. lia.
  - lia.
Defined.

(** C4, as the specification words it, fails when [target = dest]: the
    log distance is 0, the code answers [0, 1, 2], and 0 is outside
    [(0, 256]]; the truncated sequence would be [1, 2, 3]. *)
Lemma lookupDistances_zero_distance :
  enode.validID 5
  /\ enode.LogDist 5 5 = 0
  /\ lookupDistances 2 5 5 = Some [0; 1; 2]
  /\ lookupDistances_spec (enode.LogDist 5 5) = [1; 2; 3]
  /\ lookupDistances 2 5 5 <> Some (lookupDistances_spec (enode.LogDist 5 5))
  /\ ~ Forall (fun d => 0 < d <= 256) [0; 1; 2].
Proof.
  split; [unfold enode.validID; lia |].
  split; [reflexivity |]. split; [reflexivity |]. split; [reflexivity |].
  split; [discriminate |].
  intros H. inversion H as [| d l Hd _]. lia.
Qed.

(** ** De-duplication of responses *)

Lemma seen_has_insert (m : gmap Z bool) (k id : enode.ID) :
  seen_has (<[k := true]> m) id = true <-> id = k \/ seen_has m id = true.
Proof.
  unfold seen_has. destruct (decide (k = id)) as [-> | Hne].
  - rewrite lookup_insert_eq. simpl. tauto.
  - rewrite lookup_insert_ne by exact Hne. split; [tauto |].
    intros [-> | H]; [contradiction | exact H].
Qed.

Lemma ptr_ids_app (l1 l2 : list (option Node)) :
  ptr_ids (l1 ++ l2) = ptr_ids l1 ++ ptr_ids l2.
Proof. unfold ptr_ids. apply omap_app. Qed.

Lemma ptr_ids_elem (l : list (option Node)) (id : enode.ID) :
  id ∈ ptr_ids l <-> exists n, Some n ∈ l /\ nodeID n = id.
Proof.
  unfold ptr_ids. rewrite list_elem_of_omap. split.
  - intros [[n |] [Hin Heq]]; simpl in Heq; [| discriminate].
    exists n. split; [exact Hin | congruence].
  - intros [n [Hin Heq]]. exists (Some n). split; [exact Hin |].
    simpl. congruence.
Qed.

(** The buffer argument of [collectNovel] is an accumulator. *)
Lemma collectNovel_buffer (l : list (option Node)) :
  forall m b,
    collectNovel m b l = ((collectNovel m [] l).1, b ++ (collectNovel m [] l).2).
Proof.
  induction l as [| [n |] l IH]; intros m b; simpl.
  - rewrite app_nil_r. reflexivity.
  - destruct (seen_has m (nodeID n)); [apply IH |].
    rewrite (IH _ (b ++ [Some n])), (IH _ [Some n]). simpl.
    rewrite <- app_assoc. reflexivity.
  - apply IH.
Qed.

(** What one pass over a response does to [seen] and which entries it
    keeps: the non-nil entries whose id was not seen, each id once, in
    the order of the response. *)
Lemma collectNovel_spec (l : list (option Node)) :
  forall m m' novel,
    collectNovel m [] l = (m', novel) ->
    (forall id, seen_has m' id = true <-> seen_has m id = true \/ id ∈ ptr_ids l)
    /\ (None ∉ novel)
    /\ (novel `sublist_of` l)
    /\ NoDup (ptr_ids novel)
    /\ (forall id, id ∈ ptr_ids novel -> seen_has m id = false)
    /\ (forall id, id ∈ ptr_ids l -> seen_has m id = false -> id ∈ ptr_ids novel).
Proof.
  induction l as [| [n |] l IH]; intros m m' novel; simpl.
  - intros [= <- <-]. split_and!.
    + intros id. rewrite elem_of_nil. tauto.
    + apply not_elem_of_nil.
    + constructor.
    + apply NoDup_nil_2.
    + intros id H. inversion H.
    + intros id H. inversion H.
  - destruct (seen_has m (nodeID n)) eqn:Hseen.
    + intros H. apply IH in H as (Hs & Hnil & Hsub & Hnd & Hnew & Hfirst).
      split_and!; try assumption.
      * intros id. rewrite Hs, elem_of_cons. split; [tauto |].
        intros [Hid | [-> | Hid]]; tauto.
      * apply sublist_cons, Hsub.
      * intros id Hid Hm. apply elem_of_cons in Hid as [-> | Hid];
          [congruence | apply Hfirst; assumption].
    + rewrite collectNovel_buffer.
      destruct (collectNovel (<[nodeID n:=true]> m) [] l) as [m1 novel1] eqn:Hrec.
      simpl. intros [= <- <-].
      apply IH in Hrec as (Hs & Hnil & Hsub & Hnd & Hnew & Hfirst).
      split_and!.
      * intros id. rewrite Hs, seen_has_insert, elem_of_cons. tauto.
      * rewrite elem_of_cons. intros [Heq | Hin]; [discriminate | tauto].
      * apply sublist_skip, Hsub.
      * apply NoDup_cons. split; [| exact Hnd].
        intros Hin. apply Hnew in Hin.
        assert (seen_has (<[nodeID n:=true]> m) (nodeID n) = true)
          by (apply seen_has_insert; tauto).
        congruence.
      * intros id Hid. apply elem_of_cons in Hid as [-> | Hid]; [exact Hseen |].
        specialize (Hnew id Hid).
        destruct (seen_has m id) eqn:Hm; [| reflexivity].
        assert (seen_has (<[nodeID n:=true]> m) id = true)
          by (apply seen_has_insert; tauto).
        congruence.
      * intros id Hid Hm. apply elem_of_cons in Hid as [-> | Hid];
          [apply elem_of_cons; tauto |].
        destruct (decide (id = nodeID n)) as [-> | Hne];
          [apply elem_of_cons; tauto |].
        apply elem_of_cons. right. apply Hfirst; [exact Hid |].
        destruct (seen_has (<[nodeID n:=true]> m) id) eqn:Hins; [| reflexivity].
        apply seen_has_insert in Hins as [? | ?]; congruence.
  - intros H. apply IH in H as (Hs & Hnil & Hsub & Hnd & Hnew & Hfirst).
    split_and!; try assumption.
    apply sublist_cons, Hsub.
Qed.

(** A kept entry is the first entry of the response with its id. *)
Lemma collectNovel_first (l : list (option Node)) :
  forall m m' novel n,
    collectNovel m [] l = (m', novel) ->
    Some n ∈ novel ->
    exists l1 l2, l = l1 ++ Some n :: l2 /\ nodeID n ∉ ptr_ids l1.
Proof.
  induction l as [| [x |] l IH]; intros m m' novel n; simpl.
  - intros [= <- <-] Hin. inversion Hin.
  - destruct (seen_has m (nodeID x)) eqn:Hseen.
    + intros Hc Hin.
      pose proof (collectNovel_spec _ _ _ _ Hc) as (_ & _ & _ & _ & Hnew & _).
      destruct (IH _ _ _ _ Hc Hin) as (l1 & l2 & -> & Hl1).
      exists (Some x :: l1), l2. split; [reflexivity |].
      simpl. rewrite elem_of_cons. intros [Heq | Hold]; [| tauto].
      assert (seen_has m (nodeID n) = false)
        by (apply Hnew, ptr_ids_elem; eauto).
      congruence.
    + rewrite collectNovel_buffer.
      destruct (collectNovel (<[nodeID x:=true]> m) [] l) as [m1 novel1] eqn:Hrec.
      simpl. intros [= <- <-] Hin.
      apply elem_of_cons in Hin as [[= ->] | Hin].
      * exists [], l. split; [reflexivity | apply not_elem_of_nil].
      * pose proof (collectNovel_spec _ _ _ _ Hrec) as (_ & _ & _ & _ & Hnew & _).
        destruct (IH _ _ _ _ Hrec Hin) as (l1 & l2 & -> & Hl1).
        exists (Some x :: l1), l2. split; [reflexivity |].
        simpl. rewrite elem_of_cons. intros [Heq | Hold]; [| tauto].
        assert (Hunseen : seen_has (<[nodeID x:=true]> m) (nodeID n) = false)
          by (apply Hnew, ptr_ids_elem; eauto).
        assert (seen_has (<[nodeID x:=true]> m) (nodeID n) = true)
          by (apply seen_has_insert; tauto).
        congruence.
  - intros Hc Hin. destruct (IH _ _ _ _ Hc Hin) as (l1 & l2 & -> & Hl1).
    exists (None :: l1), l2. split; [reflexivity | exact Hl1].
Qed.

(** ** Single steps of the walk *)

Section WalkSteps.
Context {Rng R : Type} `{!Route Rng R}.
Implicit Types (w : walk Rng R) (q : query).

Lemma advance_hop_step w w' oq done :
  advance_hop w = (w', (oq, done)) ->
  tab w' = tab w /\ seen w' = seen w /\ replyBuffer w' = replyBuffer w
  /\ inited w' = inited w
  /\ done = (if decide (queries w >= alpha) then false
             else bool_decide (queries w' = 0))
  /\ match oq with
     | Some q =>
         queries w < alpha /\ queries w' = queries w + 1
         /\ nextHop (route w) = (route w', (node q, target q))
         /\ is_Some (node q) /\ err q = None /\ resp q = []
     | None =>
         queries w' = queries w
         /\ (queries w >= alpha -> route w' = route w)
         /\ (queries w < alpha -> exists tgt,
               nextHop (route w) = (route w', (None, tgt)))
     end.
Proof.
  unfold advance_hop. case_decide as Hfull.
  - intros [= <- <- <-]. split_and!; try reflexivity. lia.
  - destruct (nextHop (route w)) as [r' [[n |] tgt]] eqn:Hhop.
    + intros [= <- <- <-]. simpl. split_and!; try reflexivity; [lia | eauto].
    + intros [= <- <- <-]. simpl. split_and!; try reflexivity; intros; [lia | eauto].
Qed.

(** [advance] either fails to initialise the route, or runs
    [advance_hop] on an initialised walk. *)
Lemma advance_step w w' oq done :
  advance w = (w', (oq, done)) ->
  (inited w = false /\ oq = None /\ done = true
   /\ init (route w) (tab w) = (route w', false)
   /\ w' = mkWalk (tab w) (seen w) (replyBuffer w) (route w') (queries w) false)
  \/ (exists w1,
        advance_hop w1 = (w', (oq, done))
        /\ tab w1 = tab w /\ seen w1 = seen w /\ replyBuffer w1 = replyBuffer w
        /\ queries w1 = queries w /\ inited w1 = true
        /\ ((inited w = true /\ w1 = w)
            \/ (inited w = false /\ init (route w) (tab w) = (route w1, true)))).
Proof.
  unfold advance. destruct (inited w) eqn:Hinit.
  - intros H. right. exists w. split_and!; first [reflexivity | exact H | tauto].
  - destruct (init (route w) (tab w)) as [r' [|]] eqn:Hr.
    + intros H. right. eexists. split; [exact H |]. simpl.
      split_and!; first [reflexivity | tauto].
    + intros [= <- <- <-]. left. simpl. tauto.
Qed.

Lemma handleResponse_step w q w' :
  handleResponse w q = Some w' ->
  collectNovel (seen w) [] (resp q) = (seen w', replyBuffer w')
  /\ addFoundNodes (route w) (replyBuffer w') = Some (route w')
  /\ queries w' = queries w - 1
  /\ inited w' = inited w
  /\ tab w' = trackRequest (tab w) (node q)
                (bool_decide (0 < length (resp q))%nat) (replyBuffer w').
Proof.
  unfold handleResponse.
  destruct (collectNovel (seen w) [] (resp q)) as [m' novel].
  destruct (addFoundNodes (route w) novel) as [r' |] eqn:Hadd; [| discriminate].
  intros [= <-]. simpl. split_and!; try reflexivity. exact Hadd.
Qed.

(** [handleResponse] returns whenever the route's [addFoundNodes] does. *)
Lemma handleResponse_returns w q :
  is_Some (addFoundNodes (route w) (collectNovel (seen w) [] (resp q)).2) ->
  is_Some (handleResponse w q).
Proof.
  unfold handleResponse.
  destruct (collectNovel (seen w) [] (resp q)) as [m' novel]. simpl.
  intros [r' ->]. eexists. reflexivity.
Qed.

End WalkSteps.

Lemma forwarded_nodes_app (h1 h2 : list event) :
  forwarded_nodes (h1 ++ h2) = forwarded_nodes h1 ++ forwarded_nodes h2.
Proof. apply flat_map_app. Qed.

Lemma response_nodes_app (h1 h2 : list event) :
  response_nodes (h1 ++ h2) = response_nodes h1 ++ response_nodes h2.
Proof. apply flat_map_app. Qed.

Lemma hop_nodes_app (h1 h2 : list event) :
  hop_nodes (h1 ++ h2) = hop_nodes h1 ++ hop_nodes h2.
Proof. apply flat_map_app. Qed.

(** ** Invariants of the reachable states *)

Section WalkInvariants.
Context {Rng R : Type} `{!Route Rng R}.
Variables (tab0 : Table Rng) (r0 : R).
Implicit Types (w : walk Rng R) (q : query).

(** The counter is the number of pending queries, and nothing is pending
    before the route is initialised. *)
Lemma reachable_counter w pending h :
  reachable tab0 r0 w pending h ->
  queries w = Z.of_nat (length pending)
  /\ queries w <= alpha
  /\ (inited w = false -> pending = []).
Proof.
  induction 1 as [| w pending h w' oq done _ (IHq & IHa & IHi) Hadv
                  | w p1 q0 p2 h q w' _ (IHq & IHa & IHi) _ _ Hh].
  - simpl. unfold alpha. split_and!; [reflexivity | lia | reflexivity].
  - apply advance_step in Hadv
      as [(Hi & -> & _ & _ & ->) | (w1 & Hhop & _ & _ & _ & Hq1 & Hi1 & _)].
    + simpl. rewrite app_nil_r. tauto.
    + apply advance_hop_step in Hhop as (_ & _ & _ & Hi' & _ & Hoq).
      rewrite length_app. destruct oq as [q |]; simpl.
      * destruct Hoq as (Hlt & Hq' & _). split_and!; [lia | lia | congruence].
      * destruct Hoq as (Hq' & _). split_and!; [lia | lia | congruence].
  - apply handleResponse_step in Hh as (_ & _ & Hq' & Hi' & _).
    rewrite length_app in IHq |- *. simpl in IHq.
    split_and!; [lia | lia |].
    intros Hi. rewrite Hi' in Hi. apply IHi in Hi.
    destruct p1; discriminate.
Qed.

(** The table a walk refers to keeps its local node and its buckets. *)
Lemma reachable_table w pending h :
  reachable tab0 r0 w pending h ->
  self (tab w) = self tab0 /\ content (tab w) = content tab0.
Proof.
  induction 1 as [| w pending h w' oq done _ IH Hadv
                  | w p1 q0 p2 h q w' _ IH _ _ Hh].
  - split; reflexivity.
  - apply advance_step in Hadv
      as [(_ & _ & _ & _ & ->) | (w1 & Hhop & Ht & _)]; [exact IH |].
    apply advance_hop_step in Hhop as (Ht' & _). rewrite Ht', Ht. exact IH.
  - apply handleResponse_step in Hh as (_ & _ & _ & _ & Ht').
    rewrite Ht'. exact IH.
Qed.

(** [seen] holds the local node and the non-nil entries of the handled
    responses, and nothing else. *)
Lemma reachable_seen w pending h :
  reachable tab0 r0 w pending h ->
  forall id,
    seen_has (seen w) id = true
    <-> id = nodeID (self tab0) \/ id ∈ ptr_ids (response_nodes h).
Proof.
  induction 1 as [| w pending h w' oq done _ IH Hadv
                  | w p1 q0 p2 h q w' _ IH _ _ Hh]; intros id.
  - simpl. unfold seen_has.
    destruct (decide (nodeID (self tab0) = id)) as [<- | Hne].
    + rewrite lookup_singleton_eq. simpl. tauto.
    + rewrite lookup_singleton_ne by exact Hne. simpl. split; [discriminate |].
      intros [-> | Hin]; [contradiction | inversion Hin].
  - rewrite response_nodes_app. simpl. rewrite app_nil_r.
    apply advance_step in Hadv
      as [(_ & _ & _ & _ & ->) | (w1 & Hhop & _ & Hs & _)]; [apply IH |].
    apply advance_hop_step in Hhop as (_ & Hs' & _).
    rewrite Hs', Hs. apply IH.
  - apply handleResponse_step in Hh as (Hc & _).
    apply collectNovel_spec in Hc as (Hs & _).
    rewrite response_nodes_app, ptr_ids_app, elem_of_app. simpl.
    rewrite app_nil_r, Hs, IH. tauto.
Qed.

(** Every id is forwarded to the route at most once, nil entries and the
    local node never, and every forwarded id is seen. *)
Lemma reachable_forwarded w pending h :
  reachable tab0 r0 w pending h ->
  NoDup (ptr_ids (forwarded_nodes h))
  /\ (None ∉ forwarded_nodes h)
  /\ (forall id, id ∈ ptr_ids (forwarded_nodes h) ->
        seen_has (seen w) id = true /\ id <> nodeID (self tab0))
  /\ (forall id, id ∈ ptr_ids (response_nodes h) ->
        id <> nodeID (self tab0) -> id ∈ ptr_ids (forwarded_nodes h)).
Proof.
  intros Hreach. pose proof (reachable_seen _ _ _ Hreach) as Hseen.
  revert Hseen.
  induction Hreach as [| w pending h w' oq done Hr IH Hadv
                       | w p1 q0 p2 h q w' Hr IH _ _ Hh]; intros Hseen'.
  - simpl. split_and!.
    + apply NoDup_nil_2.
    + apply not_elem_of_nil.
    + intros id Hid. inversion Hid.
    + intros id Hid. inversion Hid.
  - specialize (IH (reachable_seen _ _ _ Hr)).
    rewrite forwarded_nodes_app, response_nodes_app. simpl.
    rewrite !app_nil_r.
    assert (Hs : seen w' = seen w).
    { apply advance_step in Hadv
        as [(_ & _ & _ & _ & ->) | (w1 & Hhop & _ & Hs & _)]; [reflexivity |].
      apply advance_hop_step in Hhop as (_ & Hs' & _). congruence. }
    rewrite Hs. exact IH.
  - pose proof (reachable_seen _ _ _ Hr) as Hseen.
    destruct (IH Hseen) as (IHnd & IHnil & IHseen & IHall).
    apply handleResponse_step in Hh as (Hc & _).
    apply collectNovel_spec in Hc as (Hs & Hnil & Hsub & Hnd & Hnew & Hfirst).
    rewrite forwarded_nodes_app, response_nodes_app. simpl.
    rewrite !app_nil_r, !ptr_ids_app. split_and!.
    + apply NoDup_app. split_and!; [exact IHnd | | exact Hnd].
      intros id Hold Hin. apply IHseen in Hold as [Hold _].
      apply Hnew in Hin. congruence.
    + rewrite elem_of_app. tauto.
    + intros id Hid. apply elem_of_app in Hid as [Hid | Hid].
      * apply IHseen in Hid as [Hid Hne]. split; [apply Hs; tauto | exact Hne].
      * pose proof (Hnew id Hid) as Hunseen. split.
        -- apply Hs. right. apply ptr_ids_elem in Hid as (n & Hn & <-).
           apply ptr_ids_elem. exists n. split; [| reflexivity].
           eapply elem_of_sublist; eassumption.
        -- intros ->. assert (seen_has (seen w) (nodeID (self tab0)) = true)
             by (apply Hseen; tauto). congruence.
    + intros id Hid Hne. rewrite elem_of_app.
      apply elem_of_app in Hid as [Hid | Hid]; [left; apply IHall; assumption |].
      destruct (seen_has (seen w) id) eqn:Hw.
      * apply Hseen in Hw as [-> | Hw]; [contradiction |].
        left. apply IHall; assumption.
      * right. apply Hfirst; assumption.
Qed.

(** The forwarded buffer of every handled query is picked from its
    response, in order, and each of its entries is the first entry of the
    response with that id. *)
Lemma reachable_forwarded_sublist w pending h :
  reachable tab0 r0 w pending h ->
  forall q fw, Handled q fw ∈ h ->
    fw `sublist_of` resp q
    /\ (forall n, Some n ∈ fw ->
          exists l1 l2, resp q = l1 ++ Some n :: l2 /\ nodeID n ∉ ptr_ids l1).
Proof.
  induction 1 as [| w pending h w' oq done _ IH Hadv
                  | w p1 q0 p2 h q w' _ IH _ _ Hh]; intros q1 fw Hin.
  - inversion Hin.
  - apply elem_of_app in Hin as [Hin | Hin]; [apply IH, Hin |].
    apply list_elem_of_singleton in Hin. discriminate.
  - apply elem_of_app in Hin as [Hin | Hin]; [apply IH, Hin |].
    apply list_elem_of_singleton in Hin. injection Hin as -> ->.
    apply handleResponse_step in Hh as (Hc & _).
    split.
    + apply collectNovel_spec in Hc as (_ & _ & Hsub & _). exact Hsub.
    + intros n Hn. eapply collectNovel_first; eassumption.
Qed.

End WalkInvariants.

(** ** Example runs *)

Lemma exampleWalk1_reachable :
  reachable (testTable []) exampleRoute exampleWalk1
            [emptyQuery (testNode 1)] exampleHistory1.
Proof.
  exact (reach_advance (testTable []) exampleRoute exampleWalk0 [] []
           exampleWalk1 (Some (emptyQuery (testNode 1))) false
           (reach_new _ _) eq_refl).
Defined.

Lemma exampleWalk2_reachable :
  reachable (testTable []) exampleRoute exampleWalk2 [] exampleHistory2.
Proof.
  exact (reach_handle (testTable []) exampleRoute exampleWalk1 []
           (emptyQuery (testNode 1)) [] exampleHistory1 exampleReply exampleWalk2
           exampleWalk1_reachable eq_refl eq_refl eq_refl).
Defined.

(** ** The claims about the walk *)

Lemma handled_queries_app (h1 h2 : list event) :
  handled_queries (h1 ++ h2) = handled_queries h1 ++ handled_queries h2.
Proof. apply flat_map_app. Qed.

(** The pending queries are the emitted ones less the handled ones. *)
Lemma reachable_emitted_handled {Rng R : Type} `{!Route Rng R}
    (tab0 : Table Rng) (r0 : R) (w : walk Rng R) (pending : list query)
    (h : list event) :
  reachable tab0 r0 w pending h ->
  (length (hop_nodes h) = length pending + length (handled_queries h))%nat.
Proof.
  induction 1 as [| w pending h w' oq done _ IH Hadv
                  | w p1 q0 p2 h q w' _ IH _ _ Hh].
  - reflexivity.
  - rewrite hop_nodes_app, handled_queries_app, !length_app.
    destruct oq as [q |]; simpl; lia.
  - rewrite hop_nodes_app, handled_queries_app, !length_app in *. simpl in *. lia.
Qed.

Lemma exampleWalk3_reachable :
  reachable (testTable []) exampleRoute exampleWalk3
            [emptyQuery (testNode 2)] exampleHistory3.
Proof.
  exact (reach_handle (testTable []) exampleRoute exampleWalk1b []
           (emptyQuery (testNode 1)) [emptyQuery (testNode 2)] _
           exampleReply exampleWalk3
           (reach_advance (testTable []) exampleRoute exampleWalk1
              [emptyQuery (testNode 1)] exampleHistory1 exampleWalk1b
              (Some (emptyQuery (testNode 2))) false
              exampleWalk1_reachable eq_refl)
           eq_refl eq_refl eq_refl).
Defined.

(** C1: in every reachable state [0 ≤ queries ≤ alpha], the counter being
    the number of queries emitted and not yet handled, that is the number
    of queries emitted less the number of queries handled; [advance]
    emits a query only when [queries < alpha] and then increments the
    counter, leaves it alone otherwise; and [handleResponse], which
    returns whenever the route's [addFoundNodes] does, decrements it by
    exactly one. *)
Theorem queries_in_flight_bounded {Rng R : Type} `{!Route Rng R}
    (tab0 : Table Rng) (r0 : R) (w : walk Rng R) (pending : list query)
    (h : list event) :
  reachable tab0 r0 w pending h ->
  0 <= queries w <= alpha
  /\ queries w = Z.of_nat (length pending)
  /\ queries w = Z.of_nat (length (hop_nodes h)) - Z.of_nat (length (handled_queries h))
  /\ (forall w' q done, advance w = (w', (Some q, done)) ->
        queries w < alpha /\ queries w' = queries w + 1)
  /\ (forall w' done, advance w = (w', (None, done)) -> queries w' = queries w)
  /\ (forall q w', handleResponse w q = Some w' -> queries w' = queries w - 1)
  /\ (forall q,
        is_Some (addFoundNodes (route w) (collectNovel (seen w) [] (resp q)).2) ->
        exists w', handleResponse w q = Some w' /\ queries w' = queries w - 1).
Proof.
  intros Hreach.
  destruct (reachable_counter _ _ _ _ _ Hreach) as (Hq & Ha & _).
  pose proof (reachable_emitted_handled _ _ _ _ _ Hreach) as Hcount.
  split_and!; [lia | exact Ha | exact Hq | lia | | | |].
  - intros w' q done Hadv.
    apply advance_step in Hadv
      as [(_ & Hoq & _) | (w1 & Hhop & _ & _ & _ & Hq1 & _)]; [discriminate |].
    apply advance_hop_step in Hhop as (_ & _ & _ & _ & _ & Hlt & Hq' & _). lia.
  - intros w' done Hadv.
    apply advance_step in Hadv
      as [(_ & _ & _ & _ & ->) | (w1 & Hhop & _ & _ & _ & Hq1 & _)]; [reflexivity |].
    apply advance_hop_step in Hhop as (_ & _ & _ & _ & _ & Hq' & _). lia.
  - intros q w' Hh. apply handleResponse_step in Hh. tauto.
  - intros q Hadd. destruct (handleResponse_returns w q Hadd) as [w' Hh].
    exists w'. split; [exact Hh |]. apply handleResponse_step in Hh. tauto.
Qed.

Lemma queries_in_flight_bounded_witness :
  0 <= queries exampleWalk3 <= alpha
  /\ queries exampleWalk3 = Z.of_nat (length [emptyQuery (testNode 2)])
  /\ queries exampleWalk3
     = Z.of_nat (length (hop_nodes exampleHistory3))
       - Z.of_nat (length (handled_queries exampleHistory3))
  /\ (forall w' q done, advance exampleWalk3 = (w', (Some q, done)) ->
        queries exampleWalk3 < alpha /\ queries w' = queries exampleWalk3 + 1)
  /\ (forall w' done, advance exampleWalk3 = (w', (None, done)) ->
        queries w' = queries exampleWalk3)
  /\ (forall q w', handleResponse exampleWalk3 q = Some w' ->
        queries w' = queries exampleWalk3 - 1)
  /\ (forall q,
        is_Some (addFoundNodes (Rng:=Z) (route exampleWalk3)
                   (collectNovel (seen exampleWalk3) [] (resp q)).2) ->
        exists w', handleResponse exampleWalk3 q = Some w'
                   /\ queries w' = queries exampleWalk3 - 1).
Proof.
  exact (queries_in_flight_bounded (testTable []) exampleRoute exampleWalk3
           [emptyQuery (testNode 2)] exampleHistory3 exampleWalk3_reachable).
Defined.

(** C2, as the code has it: in every reachable state an id is in [seen]
    if and only if it is the id of the local node or it was a non-nil
    entry of the response of an earlier [handleResponse] call; [advance]
    never changes [seen], so a hop enters [seen] only through a response. *)
Theorem seen_characterisation {Rng R : Type} `{!Route Rng R}
    (tab0 : Table Rng) (r0 : R) (w : walk Rng R) (pending : list query)
    (h : list event) :
  reachable tab0 r0 w pending h ->
  (forall id,
     seen_has (seen w) id = true
     <-> id = nodeID (self tab0) \/ id ∈ ptr_ids (response_nodes h))
  /\ (forall w' oq done, advance w = (w', (oq, done)) -> seen w' = seen w).
Proof.
  intros Hreach. split; [apply (reachable_seen _ _ _ _ _ Hreach) |].
  intros w' oq done Hadv.
  apply advance_step in Hadv
    as [(_ & _ & _ & _ & ->) | (w1 & Hhop & _ & Hs & _)]; [reflexivity |].
  apply advance_hop_step in Hhop as (_ & Hs' & _). congruence.
Qed.

Lemma seen_characterisation_witness :
  (forall id,
     seen_has (seen exampleWalk2) id = true
     <-> id = nodeID (self (testTable [])) \/ id ∈ ptr_ids (response_nodes exampleHistory2))
  /\ (forall w' oq done, advance exampleWalk2 = (w', (oq, done)) ->
        seen w' = seen exampleWalk2).
Proof.
  exact (seen_characterisation (testTable []) exampleRoute exampleWalk2 []
           exampleHistory2 exampleWalk2_reachable).
Defined.

(** C2, as the specification words it, fails: after the first [advance]
    of a walk over the fixed route, node 1 was returned as a hop, is not
    the local node, and is not in [seen]. *)
Lemma seen_misses_hop :
  reachable (testTable []) exampleRoute exampleWalk1
            [emptyQuery (testNode 1)] exampleHistory1
  /\ 1 ∈ ptr_ids (hop_nodes exampleHistory1)
  /\ seen_has (seen exampleWalk1) 1 = false
  /\ ~ (forall id,
          seen_has (seen exampleWalk1) id = true
          <-> id = nodeID (self (testTable []))
              \/ id ∈ ptr_ids (hop_nodes exampleHistory1)
              \/ id ∈ ptr_ids (response_nodes exampleHistory1)).
Proof.
  assert (Hhop : 1 ∈ ptr_ids (hop_nodes exampleHistory1)).
  { apply ptr_ids_elem. exists (testNode 1). split; [| reflexivity].
    apply list_elem_of_singleton. reflexivity. }
  split; [exact exampleWalk1_reachable |]. split; [exact Hhop |].
  split; [reflexivity |].
  intros Hclaim. specialize (Hclaim 1).
  assert (Hseen : seen_has (seen exampleWalk1) 1 = true) by (apply Hclaim; tauto).
  discriminate Hseen.
Qed.



(** C5: over the whole life of a walk the buffers forwarded to
    [route.addFoundNodes] name every id at most once and hold no nil
    entry; each buffer is picked, in order, from the response of its
    query, an entry being the first one of the response with its id; and
    every id of a response, the local node apart, is forwarded.  The
    buffer recorded for a call is the one handed to
    [route.addFoundNodes]. *)
Theorem forwarded_at_most_once {Rng R : Type} `{!Route Rng R}
    (tab0 : Table Rng) (r0 : R) (w : walk Rng R) (pending : list query)
    (h : list event) :
  reachable tab0 r0 w pending h ->
  NoDup (ptr_ids (forwarded_nodes h))
  /\ (None ∉ forwarded_nodes h)
  /\ (forall q fw, Handled q fw ∈ h ->
        fw `sublist_of` resp q
        /\ (forall n, Some n ∈ fw ->
              exists l1 l2, resp q = l1 ++ Some n :: l2 /\ nodeID n ∉ ptr_ids l1))
  /\ (forall id, id ∈ ptr_ids (response_nodes h) ->
        id <> nodeID (self tab0) -> id ∈ ptr_ids (forwarded_nodes h))
  /\ (forall q w', handleResponse w q = Some w' ->
        addFoundNodes (route w) (replyBuffer w') = Some (route w')).
Proof.
  intros Hreach.
  destruct (reachable_forwarded _ _ _ _ _ Hreach) as (Hnd & Hnil & _ & Hall).
  split_and!; [exact Hnd | exact Hnil | | exact Hall |].
  - apply (reachable_forwarded_sublist _ _ _ _ _ Hreach).
  - intros q w' Hh. apply handleResponse_step in Hh. tauto.
Qed.

Lemma forwarded_at_most_once_witness :
  NoDup (ptr_ids (forwarded_nodes exampleHistory2))
  /\ (None ∉ forwarded_nodes exampleHistory2)
  /\ (forall q fw, Handled q fw ∈ exampleHistory2 ->
        fw `sublist_of` resp q
        /\ (forall n, Some n ∈ fw ->
              exists l1 l2, resp q = l1 ++ Some n :: l2 /\ nodeID n ∉ ptr_ids l1))
  /\ (forall id, id ∈ ptr_ids (response_nodes exampleHistory2) ->
        id <> nodeID (self (testTable [])) ->
        id ∈ ptr_ids (forwarded_nodes exampleHistory2))
  /\ (forall q w', handleResponse exampleWalk2 q = Some w' ->
        addFoundNodes (Rng:=Z) (route exampleWalk2) (replyBuffer w')
        = Some (route w')).
Proof.
  exact (forwarded_at_most_once (testTable []) exampleRoute exampleWalk2 []
           exampleHistory2 exampleWalk2_reachable).
Defined.

(** C8, as the code has it: [handleResponse] returns whenever the route's
    [addFoundNodes] does; it then has decremented the counter by one,
    left the inited flag alone (it has no way to signal termination), and
    reported to the table the queried node, the forwarded buffer and a
    success flag that is true exactly when the response is non-empty,
    whether or not the query carries an error.  A failed query with an
    empty response is therefore reported with [success = false]. *)
Theorem handleResponse_reports_liveness {Rng R : Type} `{!Route Rng R}
    (w w' : walk Rng R) (q : query) :
  handleResponse w q = Some w' ->
  queries w' = queries w - 1
  /\ inited w' = inited w
  /\ (exists t,
        tracked (tab w') = tracked (tab w) ++ [t]
        /\ tracked_node t = node q
        /\ tracked_found t = replyBuffer w'
        /\ (tracked_success t = true <-> resp q <> [])
        /\ (resp q = [] -> tracked_success t = false))
  /\ (forall w1 q1,
        is_Some (addFoundNodes (route w1) (collectNovel (seen w1) [] (resp q1)).2) ->
        is_Some (handleResponse w1 q1)).
Proof.
  intros Hh. apply handleResponse_step in Hh as (_ & _ & Hq & Hi & Ht).
  split_and!; [exact Hq | exact Hi | | apply handleResponse_returns].
  eexists. rewrite Ht. simpl. split_and!; try reflexivity.
  - simpl. rewrite bool_decide_eq_true.
    destruct (resp q); simpl; [split; [lia | congruence] |].
    split; [discriminate | lia].
  - intros ->. reflexivity.
Qed.

Lemma handleResponse_reports_liveness_witness :
  queries exampleWalk2 = queries exampleWalk1 - 1
  /\ inited exampleWalk2 = inited exampleWalk1
  /\ (exists t,
        tracked (tab exampleWalk2) = tracked (tab exampleWalk1) ++ [t]
        /\ tracked_node t = node exampleReply
        /\ tracked_found t = replyBuffer exampleWalk2
        /\ (tracked_success t = true <-> resp exampleReply <> [])
        /\ (resp exampleReply = [] -> tracked_success t = false))
  /\ (forall (w1 : walk Z fixedRoute.t) q1,
        is_Some (addFoundNodes (Rng:=Z) (route w1)
                   (collectNovel (seen w1) [] (resp q1)).2) ->
        is_Some (handleResponse w1 q1)).
Proof.
  exact (handleResponse_reports_liveness exampleWalk1 exampleWalk2 exampleReply eq_refl).
Defined.

(** C8, as the specification words it, fails: a query completed with an
    error and a non-empty response is reported with [success = true]. *)
Lemma failed_query_reported_live :
  err exampleReply = Some "timeout"%string
  /\ handleResponse exampleWalk1 exampleReply = Some exampleWalk2
  /\ tracked (tab exampleWalk2)
     = [mkTracked (Some (testNode 1)) true [Some (testNode 7)]].
Proof. repeat split. Qed.

(** C9: over the fixed route [N1, N2, N3, N4] the first three [advance]
    calls emit the queries for N1, N2, N3 with [done = false]; after these
    are completed in the order N3, N1, N2 the next [advance] emits the
    query for N4 with [done = false]; after N4 is completed the next
    [advance] answers [(nil, true)]. *)
Theorem out_of_order_completion {Rng : Type} (tab0 : Table Rng) (n1 n2 n3 n4 : Node) :
  alpha = 3
  /\ outOfOrderScenario tab0 n1 n2 n3 n4
     = Some [(Some (emptyQuery n1), false); (Some (emptyQuery n2), false);
             (Some (emptyQuery n3), false); (Some (emptyQuery n4), false);
             (None, true)].
Proof. split; reflexivity. Qed.

(** C10: in every reachable state an [advance] that emits a query answers
    [done = false], and an [advance] that answers [done = true] emits no
    query and leaves no query in flight. *)
Theorem advance_query_excludes_done {Rng R : Type} `{!Route Rng R}
    (tab0 : Table Rng) (r0 : R) (w : walk Rng R) (pending : list query)
    (h : list event) (w' : walk Rng R) (oq : option query) (done : bool) :
  reachable tab0 r0 w pending h ->
  advance w = (w', (oq, done)) ->
  (is_Some oq -> done = false)
  /\ (done = true -> oq = None /\ queries w' = 0).
Proof.
  intros Hreach Hadv.
  destruct (reachable_counter _ _ _ _ _ Hreach) as (Hq & Ha & Hi).
  apply advance_step in Hadv
    as [(Hinit & -> & -> & _ & ->) | (w1 & Hhop & _ & _ & _ & Hq1 & _)].
  - split; [intros [? ?]; discriminate |]. intros _. split; [reflexivity |].
    simpl. rewrite Hq, (Hi Hinit). reflexivity.
  - apply advance_hop_step in Hhop as (_ & _ & _ & _ & Hdone & Hoq).
    assert (Hnn : 0 <= queries w) by lia.
    destruct oq as [q |].
    + destruct Hoq as (Hlt & Hq' & _).
      assert (done = false) as ->.
      { rewrite Hdone. case_decide; [reflexivity |].
        apply bool_decide_eq_false. lia. }
      split; [reflexivity | discriminate].
    + destruct Hoq as (Hq' & _). split; [intros [? ?]; discriminate |].
      intros ->. split; [reflexivity |].
      case_decide; [discriminate |]. symmetry in Hdone.
      apply bool_decide_eq_true in Hdone. exact Hdone.
Qed.

Lemma advance_query_excludes_done_witness :
  (is_Some (advance exampleWalk2).2.1 -> (advance exampleWalk2).2.2 = false)
  /\ ((advance exampleWalk2).2.2 = true ->
      (advance exampleWalk2).2.1 = None /\ queries (advance exampleWalk2).1 = 0).
Proof.
  exact (advance_query_excludes_done (testTable []) exampleRoute exampleWalk2 []
           exampleHistory2 (advance exampleWalk2).1 (advance exampleWalk2).2.1
           (advance exampleWalk2).2.2 exampleWalk2_reachable eq_refl).
Defined.

(** ** The random route on its own *)

Section RandomRouteProps.
Context {Rng : Type} `{!RandomSource Rng}.
Implicit Types (r : randomRoute.t Rng) (n : option Node) (g : Rng).

Lemma add_length r n :
  (length (randomRoute.buf r) <= randomRouteBuffer)%nat ->
  (length (randomRoute.buf (randomRoute.add r n)) <= randomRouteBuffer)%nat.
Proof.
  intros Hlen. unfold randomRoute.add. case_decide as Hlt.
  - simpl. rewrite length_app. simpl. lia.
  - destruct (Intn _ _) as [i g']. simpl. rewrite length_insert. exact Hlen.
Qed.

Lemma add_spec r n :
  (length (randomRoute.buf r) < randomRouteBuffer ->
   randomRoute.add r n = randomRoute.mk (randomRoute.buf r ++ [n]) (randomRoute.rng r))%nat
  /\ (length (randomRoute.buf r) = randomRouteBuffer ->
      exists i,
        (i < randomRouteBuffer)%nat
        /\ randomRoute.buf (randomRoute.add r n) = <[i := n]> (randomRoute.buf r)
        /\ randomRoute.buf (randomRoute.add r n) !! i = Some n
        /\ length (randomRoute.buf (randomRoute.add r n)) = randomRouteBuffer).
Proof.
  unfold randomRoute.add. split; intros Hlen.
  - case_decide; [reflexivity | lia].
  - case_decide; [lia |].
    pose proof (Intn_range (randomRoute.rng r)
                  (Z.of_nat (length (randomRoute.buf r)))) as Hrange.
    destruct (Intn _ _) as [i g']. simpl in Hrange |- *.
    unfold randomRouteBuffer in *.
    assert (0 <= i < 32) by (rewrite Hlen in Hrange; apply Hrange; lia).
    exists (Z.to_nat i). split_and!; [lia | reflexivity | |].
    + apply list_lookup_insert_eq. lia.
    + rewrite length_insert. exact Hlen.
Qed.

Lemma nextNode_spec r :
  (randomRoute.buf r = [] -> randomRoute.nextNode r = (r, None))
  /\ (randomRoute.buf r <> [] ->
      exists i x,
        randomRoute.buf r !! i = Some x
        /\ (randomRoute.nextNode r).2 = x
        /\ randomRoute.buf (randomRoute.nextNode r).1 = delete i (randomRoute.buf r)
        /\ S (length (randomRoute.buf (randomRoute.nextNode r).1))
           = length (randomRoute.buf r)).
Proof.
  unfold randomRoute.nextNode. split; intros Hbuf.
  - rewrite Hbuf. reflexivity.
  - case_decide as Hlen.
    { destruct (randomRoute.buf r); [contradiction | discriminate]. }
    pose proof (Intn_range (randomRoute.rng r)
                  (Z.of_nat (length (randomRoute.buf r)))) as Hrange.
    destruct (Intn _ _) as [index g']. simpl in Hrange |- *.
    assert (Hi : (Z.to_nat index < length (randomRoute.buf r))%nat) by lia.
    destruct (lookup_lt_is_Some_2 _ _ Hi) as [x Hx].
    exists (Z.to_nat index), x. split_and!; [exact Hx | | reflexivity |].
    + unfold at_index. rewrite Hx. reflexivity.
    + rewrite length_delete by eauto. lia.
Qed.

Lemma nextNode_length r :
  (length (randomRoute.buf (randomRoute.nextNode r).1)
   <= length (randomRoute.buf r))%nat.
Proof.
  destruct (nextNode_spec r) as [Hnil Hcons].
  destruct (randomRoute.buf r) eqn:Hbuf.
  - rewrite Hnil by reflexivity. simpl. rewrite Hbuf. reflexivity.
  - destruct Hcons as (i & x & _ & _ & _ & Hlen); [discriminate |].
    simpl in Hlen |- *. lia.
Qed.

(** The redraw loop answers an index other than [i1], in range. *)
Lemma redraw_spec (fuel : nat) :
  forall g bound i1 i2 j g',
    0 < bound -> 0 <= i2 < bound ->
    randomRoute.redraw fuel g bound i1 i2 = Some (j, g') ->
    j <> i1 /\ 0 <= j < bound.
Proof.
  induction fuel as [| fuel IH]; intros g bound i1 i2 j g' Hb Hi2; simpl.
  - case_decide; [discriminate |]. intros [= <- <-]. tauto.
  - case_decide; [| intros [= <- <-]; tauto].
    pose proof (Intn_range g bound Hb) as Hrange.
    destruct (Intn g bound) as [i2' g1]. apply IH; assumption.
Qed.

(** The redraw loop ends as soon as a draw differs from [i1]. *)
Lemma redraw_progress (fuel : nat) :
  forall g bound i1 k,
    (k < fuel)%nat ->
    (Intn (afterDraws k g bound) bound).1 <> i1 ->
    is_Some (randomRoute.redraw fuel g bound i1 i1).
Proof.
  induction fuel as [| fuel IH]; intros g bound i1 k Hk Hdraw; [lia |].
  simpl. case_decide; [| congruence].
  destruct (Intn g bound) as [i2 g1] eqn:Hint.
  destruct (decide (i2 = i1)) as [-> | Hne].
  - destruct k as [| k].
    + simpl in Hdraw. rewrite Hint in Hdraw. contradiction.
    + apply (IH g1 bound i1 k); [lia |].
      simpl in Hdraw. rewrite Hint in Hdraw. exact Hdraw.
  - destruct fuel; simpl; (case_decide; [contradiction | eauto]).
Qed.

Lemma addFoundNodes_spec fuel r ns :
  (ns = [] -> randomRoute.addFoundNodes fuel r ns = Some r)
  /\ (forall n, ns = [n] ->
        randomRoute.addFoundNodes fuel r ns = Some (randomRoute.add r n))
  /\ ((2 <= length ns)%nat ->
      forall r', randomRoute.addFoundNodes fuel r ns = Some r' ->
        exists i1 i2 x1 x2 g,
          i1 <> i2 /\ ns !! i1 = Some x1 /\ ns !! i2 = Some x2
          /\ r' = randomRoute.add
                    (randomRoute.add (randomRoute.mk (randomRoute.buf r) g) x1) x2)
  /\ ((2 <= length ns)%nat ->
      forall k,
        (k < fuel)%nat ->
        (Intn (afterDraws k (Intn (randomRoute.rng r) (Z.of_nat (length ns))).2
                          (Z.of_nat (length ns)))
              (Z.of_nat (length ns))).1
        <> (Intn (randomRoute.rng r) (Z.of_nat (length ns))).1 ->
        is_Some (randomRoute.addFoundNodes fuel r ns)).
Proof.
  unfold randomRoute.addFoundNodes. split_and!.
  - intros ->. reflexivity.
  - intros n ->. reflexivity.
  - intros Hlen r'.
    destruct (length ns) as [| [| m]] eqn:Hm; [lia | lia |].
    rewrite <- Hm.
    assert (Hb : 0 < Z.of_nat (length ns)) by lia.
    pose proof (Intn_range (randomRoute.rng r) _ Hb) as Hrange.
    destruct (Intn (randomRoute.rng r) _) as [i1 g1]. simpl in Hrange.
    destruct (randomRoute.redraw fuel g1 _ i1 i1) as [[i2 g2] |] eqn:Hre;
      [| discriminate].
    apply redraw_spec in Hre as [Hne Hi2]; [| exact Hb | exact Hrange].
    intros [= <-].
    assert (H1 : (Z.to_nat i1 < length ns)%nat) by lia.
    assert (H2 : (Z.to_nat i2 < length ns)%nat) by lia.
    destruct (lookup_lt_is_Some_2 _ _ H1) as [x1 Hx1].
    destruct (lookup_lt_is_Some_2 _ _ H2) as [x2 Hx2].
    exists (Z.to_nat i1), (Z.to_nat i2), x1, x2, g2.
    split_and!; [lia | exact Hx1 | exact Hx2 |].
    unfold at_index. rewrite Hx1, Hx2. reflexivity.
  - intros Hlen k Hk Hdraw.
    destruct (length ns) as [| [| m]] eqn:Hm; [lia | lia |].
    rewrite <- Hm in *.
    destruct (Intn (randomRoute.rng r) _) as [i1 g1]. simpl in Hdraw.
    destruct (redraw_progress fuel g1 _ i1 k Hk Hdraw) as [[i2 g2] ->].
    eauto.
Qed.

Lemma addFoundNodes_length fuel r ns r' :
  (length (randomRoute.buf r) <= randomRouteBuffer)%nat ->
  randomRoute.addFoundNodes fuel r ns = Some r' ->
  (length (randomRoute.buf r') <= randomRouteBuffer)%nat.
Proof.
  intros Hlen Hadd. destruct (addFoundNodes_spec fuel r ns) as (H0 & H1 & H2 & _).
  destruct ns as [| n [| n' ns]].
  - rewrite H0 in Hadd by reflexivity. congruence.
  - rewrite (H1 n) in Hadd by reflexivity. injection Hadd as <-.
    apply add_length, Hlen.
  - destruct (H2 ltac:(simpl; lia) r' Hadd) as (i1 & i2 & x1 & x2 & g & _ & _ & _ & ->).
    apply add_length, add_length. exact Hlen.
Qed.

Lemma reachableRoute_length r :
  reachableRoute r -> (length (randomRoute.buf r) <= randomRouteBuffer)%nat.
Proof.
  induction 1 as [g | r tab _ IH | r _ IH | r n _ IH | fuel r ns r' _ IH Hadd].
  - simpl. lia.
  - simpl. unfold readRandomNodes. rewrite length_take. lia.
  - pose proof (nextNode_length r). lia.
  - apply add_length, IH.
  - eapply addFoundNodes_length; eassumption.
Qed.

End RandomRouteProps.

Lemma exampleRandomRoute_reachable : reachableRoute exampleRandomRoute.
Proof. apply route_init, route_new. Defined.

(** C7: in every state of a random route produced by [init], [nextNode],
    [add] and [addFoundNodes] the buffer holds at most 32 nodes.
    [nextNode] answers nil on an empty buffer and otherwise removes
    exactly one entry, the one it answers.  [add] appends below 32
    entries and otherwise overwrites one existing slot, the length
    staying 32.  [addFoundNodes] does nothing for an empty [ns], adds the
    node of a one-element [ns], and for two or more adds the entries at
    two distinct indices of [ns]; this last case returns as soon as the
    source draws an index other than the first one. *)
Theorem randomRoute_buffer_bounded {Rng : Type} `{!RandomSource Rng}
    (r : randomRoute.t Rng) :
  reachableRoute r ->
  (length (randomRoute.buf r) <= randomRouteBuffer)%nat
  /\ (randomRoute.buf r = [] -> randomRoute.nextNode r = (r, None))
  /\ (randomRoute.buf r <> [] ->
      exists i x,
        randomRoute.buf r !! i = Some x
        /\ (randomRoute.nextNode r).2 = x
        /\ randomRoute.buf (randomRoute.nextNode r).1 = delete i (randomRoute.buf r)
        /\ S (length (randomRoute.buf (randomRoute.nextNode r).1))
           = length (randomRoute.buf r))
  /\ (forall n,
        ((length (randomRoute.buf r) < randomRouteBuffer)%nat ->
         randomRoute.add r n
         = randomRoute.mk (randomRoute.buf r ++ [n]) (randomRoute.rng r))
        /\ (length (randomRoute.buf r) = randomRouteBuffer ->
            exists i,
              (i < randomRouteBuffer)%nat
              /\ randomRoute.buf (randomRoute.add r n) = <[i := n]> (randomRoute.buf r)
              /\ randomRoute.buf (randomRoute.add r n) !! i = Some n
              /\ length (randomRoute.buf (randomRoute.add r n)) = randomRouteBuffer))
  /\ (forall fuel ns,
        (ns = [] -> randomRoute.addFoundNodes fuel r ns = Some r)
        /\ (forall n, ns = [n] ->
              randomRoute.addFoundNodes fuel r ns = Some (randomRoute.add r n))
        /\ ((2 <= length ns)%nat ->
            forall r', randomRoute.addFoundNodes fuel r ns = Some r' ->
              exists i1 i2 x1 x2 g,
                i1 <> i2 /\ ns !! i1 = Some x1 /\ ns !! i2 = Some x2
                /\ r' = randomRoute.add
                          (randomRoute.add (randomRoute.mk (randomRoute.buf r) g) x1) x2)
        /\ ((2 <= length ns)%nat ->
            forall k,
              (k < fuel)%nat ->
              (Intn (afterDraws k (Intn (randomRoute.rng r) (Z.of_nat (length ns))).2
                                (Z.of_nat (length ns)))
                    (Z.of_nat (length ns))).1
              <> (Intn (randomRoute.rng r) (Z.of_nat (length ns))).1 ->
              is_Some (randomRoute.addFoundNodes fuel r ns))).
Proof.
  intros Hreach. split; [apply reachableRoute_length, Hreach |].
  split; [apply nextNode_spec |]. split; [apply nextNode_spec |].
  split; [intros n; apply add_spec |].
  intros fuel ns. apply addFoundNodes_spec.
Qed.

Lemma randomRoute_buffer_bounded_witness :
  let r := exampleRandomRoute in
  (length (randomRoute.buf r) <= randomRouteBuffer)%nat
  /\ (randomRoute.buf r = [] -> randomRoute.nextNode r = (r, None))
  /\ (randomRoute.buf r <> [] ->
      exists i x,
        randomRoute.buf r !! i = Some x
        /\ (randomRoute.nextNode r).2 = x
        /\ randomRoute.buf (randomRoute.nextNode r).1 = delete i (randomRoute.buf r)
        /\ S (length (randomRoute.buf (randomRoute.nextNode r).1))
           = length (randomRoute.buf r))
  /\ (forall n,
        ((length (randomRoute.buf r) < randomRouteBuffer)%nat ->
         randomRoute.add r n
         = randomRoute.mk (randomRoute.buf r ++ [n]) (randomRoute.rng r))
        /\ (length (randomRoute.buf r) = randomRouteBuffer ->
            exists i,
              (i < randomRouteBuffer)%nat
              /\ randomRoute.buf (randomRoute.add r n) = <[i := n]> (randomRoute.buf r)
              /\ randomRoute.buf (randomRoute.add r n) !! i = Some n
              /\ length (randomRoute.buf (randomRoute.add r n)) = randomRouteBuffer))
  /\ (forall fuel ns,
        (ns = [] -> randomRoute.addFoundNodes fuel r ns = Some r)
        /\ (forall n, ns = [n] ->
              randomRoute.addFoundNodes fuel r ns = Some (randomRoute.add r n))
        /\ ((2 <= length ns)%nat ->
            forall r', randomRoute.addFoundNodes fuel r ns = Some r' ->
              exists i1 i2 x1 x2 g,
                i1 <> i2 /\ ns !! i1 = Some x1 /\ ns !! i2 = Some x2
                /\ r' = randomRoute.add
                          (randomRoute.add (randomRoute.mk (randomRoute.buf r) g) x1) x2)
        /\ ((2 <= length ns)%nat ->
            forall k,
              (k < fuel)%nat ->
              (Intn (afterDraws k (Intn (randomRoute.rng r) (Z.of_nat (length ns))).2
                                (Z.of_nat (length ns)))
                    (Z.of_nat (length ns))).1
              <> (Intn (randomRoute.rng r) (Z.of_nat (length ns))).1 ->
              is_Some (randomRoute.addFoundNodes fuel r ns))).
Proof.
  exact (randomRoute_buffer_bounded exampleRandomRoute exampleRandomRoute_reachable).
Defined.

(** ** Where the hops of a walk come from *)

Section RouteHoldings.
Context {Rng R : Type} `{!Route Rng R}.

(** [held r] lists the nodes the route [r] may still answer as a hop.
    The three hypotheses say that a route only ever holds nodes read
    from the table or handed over through [addFoundNodes]. *)
Variable held : R -> list (option Node).
Hypothesis held_init : forall r (tab1 : Table Rng) r' ok,
  init r tab1 = (r', ok) ->
  forall n, Some n ∈ held r' -> Some n ∈ held r \/ n ∈ content tab1.
Hypothesis held_nextHop : forall r r' hop tgt,
  nextHop (Rng:=Rng) r = (r', (hop, tgt)) ->
  (forall n, Some n ∈ held r' -> Some n ∈ held r)
  /\ (forall n, hop = Some n -> Some n ∈ held r).
Hypothesis held_addFoundNodes : forall r ns r',
  addFoundNodes (Rng:=Rng) r ns = Some r' ->
  forall n, Some n ∈ held r' -> Some n ∈ held r \/ Some n ∈ ns.

Variables (tab0 : Table Rng) (r0 : R).
Hypothesis table_excludes_self :
  forall n, n ∈ content tab0 -> nodeID n <> nodeID (self tab0).
Hypothesis held_new :
  forall n, Some n ∈ held r0 -> nodeID n <> nodeID (self tab0).

Lemma reachable_hops (w : walk Rng R) pending h :
  reachable tab0 r0 w pending h ->
  (forall n, Some n ∈ held (route w) -> nodeID n <> nodeID (self tab0))
  /\ nodeID (self tab0) ∉ ptr_ids (hop_nodes h).
Proof.
  induction 1 as [| w pending h w' oq done Hr [IHheld IHhop] Hadv
                  | w p1 q0 p2 h q w' Hr [IHheld IHhop] _ _ Hh].
  - split; [exact held_new | apply not_elem_of_nil].
  - destruct (reachable_table _ _ _ _ _ Hr) as [_ Hcontent].
    assert (Hinit : forall r' ok, init (route w) (tab w) = (r', ok) ->
              forall n, Some n ∈ held r' -> nodeID n <> nodeID (self tab0)).
    { intros r' ok Hi n Hn.
      destruct (held_init _ _ _ _ Hi n Hn) as [Hold | Htab];
        [apply IHheld, Hold | apply table_excludes_self; congruence]. }
    rewrite hop_nodes_app, ptr_ids_app, elem_of_app.
    apply advance_step in Hadv
      as [(_ & -> & -> & Hi & ->) | (w1 & Hhop & _ & _ & _ & _ & _ & Hw1)].
    + simpl. split; [eapply Hinit; exact Hi |].
      intros [Hin | Hin]; [tauto | inversion Hin].
    + assert (H1 : forall n, Some n ∈ held (route w1) ->
                nodeID n <> nodeID (self tab0)).
      { destruct Hw1 as [[_ ->] | [_ Hi]]; [exact IHheld | eapply Hinit; exact Hi]. }
      apply advance_hop_step in Hhop as (_ & _ & _ & _ & _ & Hoq).
      destruct oq as [q |].
      * destruct Hoq as (_ & _ & Hnext & [n Hn] & _).
        apply held_nextHop in Hnext as [Hsub Hin].
        split; [intros m Hm; apply H1, Hsub, Hm |].
        simpl. rewrite Hn. simpl.
        intros [Hold | Hnew]; [tauto |].
        apply list_elem_of_singleton in Hnew.
        apply (H1 n); [apply Hin; exact Hn | congruence].
      * simpl. split; [| intros [Hin | Hin]; [tauto | inversion Hin]].
        destruct Hoq as (_ & Hfull & Hnext).
        destruct (decide (queries w1 >= alpha)) as [Hge | Hlt].
        -- rewrite (Hfull Hge). exact H1.
        -- destruct Hnext as [tgt Hnext]; [lia |].
           apply held_nextHop in Hnext as [Hsub _].
           intros m Hm. apply H1, Hsub, Hm.
  - rewrite hop_nodes_app. simpl. rewrite app_nil_r. split; [| exact IHhop].
    pose proof (reachable_seen _ _ _ _ _ Hr (nodeID (self tab0))) as Hself.
    apply handleResponse_step in Hh as (Hc & Hadd & _).
    apply collectNovel_spec in Hc as (_ & _ & _ & _ & Hnew & _).
    intros n Hn. destruct (held_addFoundNodes _ _ _ Hadd n Hn) as [Hold | Hfw];
      [apply IHheld, Hold |].
    intros Heq. assert (Hunseen : seen_has (seen w) (nodeID n) = false).
    { apply Hnew, ptr_ids_elem. eauto. }
    rewrite Heq in Hunseen.
    assert (seen_has (seen w) (nodeID (self tab0)) = true) by (apply Hself; tauto).
    congruence.
Qed.

End RouteHoldings.

(** *** What the random route holds *)

Section RandomRouteHoldings.
Context {Rng : Type} `{!RandomSource Rng}.
Implicit Types (r : randomRoute.t Rng).

Lemma randomRoute_init_held r (tab1 : Table Rng) n :
  Some n ∈ randomRoute.buf (randomRoute.init r tab1).1 -> n ∈ content tab1.
Proof.
  simpl. unfold readRandomNodes. intros Hin.
  apply subseteq_take in Hin. apply list_elem_of_fmap in Hin as (m & [= ->] & Hm).
  exact Hm.
Qed.

Lemma at_index_elem (l : list (option Node)) (i : Z) (n : Node) :
  at_index l i = Some n -> Some n ∈ l.
Proof.
  unfold at_index. destruct (l !! Z.to_nat i) as [x |] eqn:Hx; [| discriminate].
  simpl. intros ->. eapply list_elem_of_lookup_2, Hx.
Qed.

Lemma randomRoute_nextNode_held r :
  (forall n, Some n ∈ randomRoute.buf (randomRoute.nextNode r).1 ->
             Some n ∈ randomRoute.buf r)
  /\ (forall n, (randomRoute.nextNode r).2 = Some n -> Some n ∈ randomRoute.buf r).
Proof.
  unfold randomRoute.nextNode. case_decide.
  - simpl. split; [tauto | discriminate].
  - destruct (Intn _ _) as [index g']. simpl. split.
    + intros n. apply list_elem_of_delete_inv.
    + intros n. apply at_index_elem.
Qed.

Lemma randomRoute_add_held r (x : option Node) n :
  Some n ∈ randomRoute.buf (randomRoute.add r x) ->
  Some n ∈ randomRoute.buf r \/ x = Some n.
Proof.
  unfold randomRoute.add. case_decide.
  - simpl. rewrite elem_of_app, list_elem_of_singleton. intuition congruence.
  - destruct (Intn _ _) as [i g']. simpl. intros Hin.
    apply list_elem_of_lookup_1 in Hin as [j Hj].
    apply list_lookup_insert_Some in Hj as [(_ & -> & _) | (_ & Hj)].
    + tauto.
    + left. eapply list_elem_of_lookup_2, Hj.
Qed.

Lemma randomRoute_addFoundNodes_held fuel r ns r' n :
  randomRoute.addFoundNodes fuel r ns = Some r' ->
  Some n ∈ randomRoute.buf r' -> Some n ∈ randomRoute.buf r \/ Some n ∈ ns.
Proof.
  unfold randomRoute.addFoundNodes.
  destruct (length ns) as [| [| m]].
  - intros [= <-]. tauto.
  - intros [= <-] Hin. apply randomRoute_add_held in Hin as [Hin | Hin];
      [tauto | right; eapply at_index_elem, Hin].
  - destruct (Intn _ _) as [i1 g1].
    destruct (randomRoute.redraw _ _ _ _ _) as [[i2 g2] |]; [| discriminate].
    intros [= <-] Hin.
    apply randomRoute_add_held in Hin as [Hin | Hin];
      [| right; eapply at_index_elem, Hin].
    apply randomRoute_add_held in Hin as [Hin | Hin];
      [tauto | right; eapply at_index_elem, Hin].
Qed.

End RandomRouteHoldings.

(** *** What the lookup route holds *)

Lemma insertByDistance_elem (tgt : enode.ID) (n x : Node) (es : list Node) :
  x ∈ lookupRoute.insertByDistance tgt n es -> x = n \/ x ∈ es.
Proof.
  induction es as [| e es IH]; simpl.
  - rewrite list_elem_of_singleton. tauto.
  - case_decide.
    + rewrite !elem_of_cons. tauto.
    + rewrite !elem_of_cons. intros [-> | Hin]; [tauto |].
      apply IH in Hin. tauto.
Qed.

Lemma push_elem (h : lookupRoute.nodesByDistance) (n x : Node) (maxElems : nat) :
  x ∈ lookupRoute.entries (lookupRoute.push h n maxElems) ->
  x = n \/ x ∈ lookupRoute.entries h.
Proof.
  unfold lookupRoute.push. destruct (existsb _ _); [tauto |]. simpl.
  intros Hin. apply subseteq_take in Hin. eapply insertByDistance_elem. exact Hin.
Qed.

Lemma findnodeByID_elem {Rng : Type} (tab1 : Table Rng) (tgt : enode.ID)
    (nresults : nat) (preferLive : bool) (x : Node) :
  x ∈ lookupRoute.entries (lookupRoute.findnodeByID tab1 tgt nresults preferLive) ->
  x ∈ content tab1.
Proof.
  unfold lookupRoute.findnodeByID.
  assert (Hgen : forall l h,
            x ∈ lookupRoute.entries
                  (foldl (fun h n => lookupRoute.push h n nresults) h l) ->
            x ∈ lookupRoute.entries h \/ x ∈ l).
  { induction l as [| n l IH]; intros h; simpl; [tauto |].
    intros Hin. apply IH in Hin as [Hin | Hin].
    - apply push_elem in Hin as [-> | Hin]; [right; left | tauto].
    - right. right. exact Hin. }
  intros Hin. apply Hgen in Hin as [Hin | Hin]; [inversion Hin | exact Hin].
Qed.

Lemma firstUnasked_elem (asked : gmap Z bool) (es : list Node) (n : Node) :
  lookupRoute.firstUnasked asked es = Some n -> n ∈ es.
Proof.
  induction es as [| e es IH]; simpl; [discriminate |].
  destruct (seen_has asked (nodeID e)).
  - intros H. right. apply IH, H.
  - intros [= ->]. left.
Qed.

Lemma pushAll_elem (ns : list (option Node)) :
  forall h h' x,
    lookupRoute.pushAll h ns = Some h' ->
    x ∈ lookupRoute.entries h' -> x ∈ lookupRoute.entries h \/ Some x ∈ ns.
Proof.
  induction ns as [| [n |] ns IH]; intros h h' x; simpl.
  - intros [= <-]. tauto.
  - intros Hp Hin. destruct (IH _ _ _ Hp Hin) as [Hold | Hns].
    + apply push_elem in Hold as [-> | Hold]; [right; left | tauto].
    + right. right. exact Hns.
  - discriminate.
Qed.

Section LookupRouteHoldings.
Context {Rng : Type}.

Lemma lookupHeld_elem l n :
  Some n ∈ lookupHeld l <-> n ∈ lookupRoute.entries (lookupRoute.list_ l).
Proof.
  unfold lookupHeld. rewrite list_elem_of_fmap. split.
  - intros (m & [= ->] & Hm). exact Hm.
  - intros Hn. eauto.
Qed.

Lemma lookupRoute_init_held l (tab1 : Table Rng) l' ok n :
  lookupRoute.init l tab1 = (l', ok) ->
  Some n ∈ lookupHeld l' -> Some n ∈ lookupHeld l \/ n ∈ content tab1.
Proof.
  unfold lookupRoute.init. case_decide.
  - intros [= <- <-]. tauto.
  - intros [= <- <-]. rewrite lookupHeld_elem. simpl.
    intros Hin. right. eapply findnodeByID_elem. exact Hin.
Qed.

Lemma lookupRoute_nextHop_held l l' hop tgt :
  lookupRoute.nextHop l = (l', (hop, tgt)) ->
  (forall n, Some n ∈ lookupHeld l' -> Some n ∈ lookupHeld l)
  /\ (forall n, hop = Some n -> Some n ∈ lookupHeld l).
Proof.
  unfold lookupRoute.nextHop.
  destruct (lookupRoute.firstUnasked _ _) as [m |] eqn:Hfirst.
  - intros [= <- <- <-]. split; [tauto |].
    intros n [= <-]. apply lookupHeld_elem. eapply firstUnasked_elem, Hfirst.
  - intros [= <- <- <-]. split; [tauto | discriminate].
Qed.

Lemma lookupRoute_addFoundNodes_held l ns l' n :
  lookupRoute.addFoundNodes l ns = Some l' ->
  Some n ∈ lookupHeld l' -> Some n ∈ lookupHeld l \/ Some n ∈ ns.
Proof.
  unfold lookupRoute.addFoundNodes.
  destruct (lookupRoute.pushAll _ _) as [h |] eqn:Hp; [| discriminate].
  intros [= <-]. rewrite !lookupHeld_elem. simpl. eapply pushAll_elem, Hp.
Qed.

End LookupRouteHoldings.

(** C6: over a table that does not report the local node, a walk along a
    random route (v4 or v5) or a lookup route (v4 or v5) never emits a
    query for the local node; and whatever the route, the id of the local
    node is never in a buffer forwarded to [route.addFoundNodes]. *)
Theorem local_node_never_hop {Rng : Type} `{!RandomSource Rng} (tab0 : Table Rng) :
  (forall n, n ∈ content tab0 -> nodeID n <> nodeID (self tab0)) ->
  (forall fuel g w pending h,
     reachable (Route0 := randomRouteV4_Route fuel) tab0
               (randomRoute.newRandomRouteV4 g) w pending h ->
     nodeID (self tab0) ∉ ptr_ids (hop_nodes h))
  /\ (forall fuel g w pending h,
        reachable (Route0 := randomRouteV5_Route fuel) tab0
                  (randomRoute.newRandomRouteV5 g) w pending h ->
        nodeID (self tab0) ∉ ptr_ids (hop_nodes h))
  /\ (forall keyID key w pending h,
        reachable tab0 (lookupRoute.newLookupRouteV4 keyID key) w pending h ->
        nodeID (self tab0) ∉ ptr_ids (hop_nodes h))
  /\ (forall tgt w pending h,
        reachable tab0 (lookupRoute.newLookupRouteV5 tgt) w pending h ->
        nodeID (self tab0) ∉ ptr_ids (hop_nodes h))
  /\ (forall (R : Type) (Hroute : Route Rng R) (r0 : R) w pending h,
        reachable tab0 r0 w pending h ->
        nodeID (self tab0) ∉ ptr_ids (forwarded_nodes h)).
Proof.
  intros Htab. split_and!.
  - intros fuel g w pending h Hreach.
    refine (proj2 (reachable_hops (Route0 := randomRouteV4_Route fuel)
                     (fun r => randomRoute.buf (randomRoute.baseV4 r))
                     _ _ _ tab0 (randomRoute.newRandomRouteV4 g) Htab _
                     w pending h Hreach)).
    + intros r tab1 r' ok. simpl. intros [= <- <-] n Hn. right.
      eapply (randomRoute_init_held (randomRoute.baseV4 r)), Hn.
    + intros r r' hop tgt. simpl. unfold randomRoute.nextHopV4.
      pose proof (randomRoute_nextNode_held (randomRoute.baseV4 r)) as [Hsub Hin].
      destruct (randomRoute.nextNode (randomRoute.baseV4 r)) as [b [m |]].
      * destruct (Read _ _) as [key g']. intros [= <- <- <-]. simpl in *. tauto.
      * intros [= <- <- <-]. simpl in *. tauto.
    + intros r ns r'. simpl.
      destruct (randomRoute.addFoundNodes fuel (randomRoute.baseV4 r) ns)
        as [b |] eqn:Hadd; [| discriminate].
      simpl. intros [= <-] n. simpl. eapply randomRoute_addFoundNodes_held, Hadd.
    + simpl. intros n Hn. inversion Hn.
  - intros fuel g w pending h Hreach.
    refine (proj2 (reachable_hops (Route0 := randomRouteV5_Route fuel)
                     (fun r => randomRoute.buf (randomRoute.baseV5 r))
                     _ _ _ tab0 (randomRoute.newRandomRouteV5 g) Htab _
                     w pending h Hreach)).
    + intros r tab1 r' ok. simpl. intros [= <- <-] n Hn. right.
      eapply (randomRoute_init_held (randomRoute.baseV5 r)), Hn.
    + intros r r' hop tgt. simpl. unfold randomRoute.nextHopV5.
      pose proof (randomRoute_nextNode_held (randomRoute.baseV5 r)) as [Hsub Hin].
      destruct (randomRoute.nextNode (randomRoute.baseV5 r)) as [b m].
      intros [= <- <- <-]. simpl in *. tauto.
    + intros r ns r'. simpl.
      destruct (randomRoute.addFoundNodes fuel (randomRoute.baseV5 r) ns)
        as [b |] eqn:Hadd; [| discriminate].
      simpl. intros [= <-] n. simpl. eapply randomRoute_addFoundNodes_held, Hadd.
    + simpl. intros n Hn. inversion Hn.
  - intros keyID key w pending h Hreach.
    refine (proj2 (reachable_hops lookupHeld _ _ _ tab0
                     (lookupRoute.newLookupRouteV4 keyID key) Htab _
                     w pending h Hreach)).
    + intros r tab1 r' ok Hi n. eapply lookupRoute_init_held, Hi.
    + intros r r' hop tgt. apply lookupRoute_nextHop_held.
    + intros r ns r' Hadd n. eapply lookupRoute_addFoundNodes_held, Hadd.
    + intros n Hn. inversion Hn.
  - intros tgt w pending h Hreach.
    refine (proj2 (reachable_hops lookupHeld _ _ _ tab0
                     (lookupRoute.newLookupRouteV5 tgt) Htab _
                     w pending h Hreach)).
    + intros r tab1 r' ok Hi n. eapply lookupRoute_init_held, Hi.
    + intros r r' hop tgt'. apply lookupRoute_nextHop_held.
    + intros r ns r' Hadd n. eapply lookupRoute_addFoundNodes_held, Hadd.
    + intros n Hn. inversion Hn.
  - intros R Hroute r0 w pending h Hreach.
    destruct (reachable_forwarded _ _ _ _ _ Hreach) as (_ & _ & Hfw & _).
    intros Hin. apply Hfw in Hin as [_ Hne]. congruence.
Qed.

Lemma exampleTable_excludes_self :
  forall n, n ∈ content exampleTable -> nodeID n <> nodeID (self exampleTable).
Proof.
  intros n Hn. simpl in Hn.
  apply elem_of_cons in Hn as [-> | Hn]; [discriminate |].
  apply elem_of_cons in Hn as [-> | Hn]; [discriminate |].
  inversion Hn.
Defined.

Lemma local_node_never_hop_witness :
  (forall fuel g w pending h,
     reachable (Route0 := randomRouteV4_Route fuel) exampleTable
               (randomRoute.newRandomRouteV4 g) w pending h ->
     nodeID (self exampleTable) ∉ ptr_ids (hop_nodes h))
  /\ (forall fuel g w pending h,
        reachable (Route0 := randomRouteV5_Route fuel) exampleTable
                  (randomRoute.newRandomRouteV5 g) w pending h ->
        nodeID (self exampleTable) ∉ ptr_ids (hop_nodes h))
  /\ (forall keyID key w pending h,
        reachable exampleTable (lookupRoute.newLookupRouteV4 keyID key) w pending h ->
        nodeID (self exampleTable) ∉ ptr_ids (hop_nodes h))
  /\ (forall tgt w pending h,
        reachable exampleTable (lookupRoute.newLookupRouteV5 tgt) w pending h ->
        nodeID (self exampleTable) ∉ ptr_ids (hop_nodes h))
  /\ (forall (R : Type) (Hroute : Route Z R) (r0 : R) w pending h,
        reachable exampleTable r0 w pending h ->
        nodeID (self exampleTable) ∉ ptr_ids (forwarded_nodes h)).
Proof.
  exact (local_node_never_hop exampleTable exampleTable_excludes_self).
Defined.

(** * Further properties of the walk *)

Lemma reports_app (h1 h2 : list event) : reports (h1 ++ h2) = reports h1 ++ reports h2.
Proof. apply flat_map_app. Qed.

(** X1: a walk calls [Table.trackRequest] exactly once for every handled
    query, in the order the queries are handled, with the queried node, a
    success flag that tells whether the response was non-empty and the
    forwarded buffer; [advance] makes no such call. *)
Theorem table_reports_follow_responses {Rng R : Type} `{!Route Rng R}
    (tab0 : Table Rng) (r0 : R) (w : walk Rng R) (pending : list query)
    (h : list event) :
  reachable tab0 r0 w pending h ->
  tracked (tab w) = tracked tab0 ++ reports h.
Proof.
  induction 1 as [| w pending h w' oq done _ IH Hadv
                  | w p1 q0 p2 h q w' _ IH _ _ Hh].
  - simpl. rewrite app_nil_r. reflexivity.
  - rewrite reports_app. simpl. rewrite app_nil_r.
    assert (Ht : tab w' = tab w).
    { apply advance_step in Hadv
        as [(_ & _ & _ & _ & ->) | (w1 & Hhop & Ht & _)]; [reflexivity |].
      apply advance_hop_step in Hhop as (Ht' & _). congruence. }
    rewrite Ht. exact IH.
  - apply handleResponse_step in Hh as (_ & _ & _ & _ & Ht).
    rewrite Ht, reports_app. simpl. rewrite IH, app_assoc. reflexivity.
Qed.

Lemma table_reports_follow_responses_witness :
  tracked (tab exampleWalk2) = tracked (testTable []) ++ reports exampleHistory2.
Proof.
  exact (table_reports_follow_responses (testTable []) exampleRoute exampleWalk2 []
           exampleHistory2 exampleWalk2_reachable).
Defined.

(** A response whose ids are all seen leaves [seen] alone and yields an
    empty buffer. *)
Lemma collectNovel_all_seen (l : list (option Node)) (m : gmap Z bool) :
  (forall id, id ∈ ptr_ids l -> seen_has m id = true) ->
  collectNovel m [] l = (m, []).
Proof.
  induction l as [| [n |] l IH]; intros Hall; simpl.
  - reflexivity.
  - rewrite (Hall (nodeID n)) by (simpl; left). apply IH.
    intros id Hid. apply Hall. simpl. right. exact Hid.
  - apply IH. intros id Hid. apply Hall. exact Hid.
Qed.

(** X2: handling a response is idempotent on its nodes.  Once a query was
    handled, handling any response that names only ids of that response
    (the same response again, say) forwards an empty buffer to the route
    and leaves [seen] as it is. *)
Theorem handleResponse_forwards_once {Rng R : Type} `{!Route Rng R}
    (w w1 w2 : walk Rng R) (q q' : query) :
  handleResponse w q = Some w1 ->
  (forall id, id ∈ ptr_ids (resp q') -> id ∈ ptr_ids (resp q)) ->
  handleResponse w1 q' = Some w2 ->
  replyBuffer w2 = [] /\ seen w2 = seen w1
  /\ addFoundNodes (route w1) [] = Some (route w2).
Proof.
  intros H1 Hsub H2.
  apply handleResponse_step in H1 as (Hc1 & _).
  apply collectNovel_spec in Hc1 as (Hs & _).
  apply handleResponse_step in H2 as (Hc2 & Hadd & _).
  rewrite collectNovel_all_seen in Hc2.
  - injection Hc2 as Hseen Hbuf. rewrite <- Hbuf in Hadd |- *. auto.
  - intros id Hid. apply Hs. right. apply Hsub, Hid.
Qed.

Lemma handleResponse_forwards_once_witness :
  replyBuffer (default exampleWalk2 (handleResponse exampleWalk2 exampleReply)) = []
  /\ seen (default exampleWalk2 (handleResponse exampleWalk2 exampleReply))
     = seen exampleWalk2
  /\ addFoundNodes (Rng:=Z) (route exampleWalk2) []
     = Some (route (default exampleWalk2 (handleResponse exampleWalk2 exampleReply))).
Proof.
  exact (handleResponse_forwards_once exampleWalk1 exampleWalk2
           (default exampleWalk2 (handleResponse exampleWalk2 exampleReply))
           exampleReply exampleReply eq_refl (fun id Hid => Hid) eq_refl).
Defined.

(** ** Walks over the fixed route *)

Lemma fixedRoute_nextHop_cases (r r' : fixedRoute.t) (hop : option Node) (tgt : Target) :
  fixedRoute.nextHop r = (r', (hop, tgt)) ->
  (r = [] /\ r' = [] /\ hop = None) \/ r = hop :: r'.
Proof.
  unfold fixedRoute.nextHop. destruct r as [| n rest]; intros [= <- <- <-]; tauto.
Qed.

Lemma filter_non_nil (l : list (option Node)) :
  None ∉ l -> filter (fun n : option Node => is_Some n) l = l.
Proof.
  induction l as [| [n |] l IH]; intros Hnil; [reflexivity | |].
  - rewrite filter_cons_True by (simpl; eauto). f_equal. apply IH.
    intros Hin. apply Hnil. right. exact Hin.
  - exfalso. apply Hnil. left.
Qed.

(** X3: a walk over a fixed route consumes the route from the front and
    queries exactly the non-nil nodes it consumed, in their order.  When
    the route holds no nil entry, [advance] answers [done = true] only
    once the route is used up, every node of it having been queried. *)
Theorem fixed_route_hops_in_order {Rng : Type} (tab0 : Table Rng)
    (r0 : fixedRoute.t) (w : walk Rng fixedRoute.t) (pending : list query)
    (h : list event) :
  reachable tab0 r0 w pending h ->
  (exists consumed,
     r0 = consumed ++ route w
     /\ hop_nodes h = filter (fun n : option Node => is_Some n) consumed)
  /\ (None ∉ r0 ->
      forall w' oq, advance w = (w', (oq, true)) ->
        route w' = [] /\ hop_nodes h = r0).
Proof.
  intros Hreach.
  assert (Hinv : exists consumed,
             r0 = consumed ++ route w
             /\ hop_nodes h = filter (fun n : option Node => is_Some n) consumed).
  { induction Hreach as [| w pending h w' oq done _ IH Hadv
                         | w p1 q0 p2 h q w' _ IH _ _ Hh].
    - exists []. split; reflexivity.
    - destruct IH as (consumed & Hr0 & Hhops).
      rewrite hop_nodes_app.
      apply advance_step in Hadv
        as [(_ & _ & _ & Hi & _) | (w1 & Hhop & _ & _ & _ & _ & _ & Hw1)];
        [discriminate Hi |].
      assert (Hr1 : route w1 = route w).
      { destruct Hw1 as [[_ ->] | [_ Hi]]; [reflexivity |]. injection Hi as ->.
        reflexivity. }
      apply advance_hop_step in Hhop as (_ & _ & _ & _ & _ & Hoq).
      destruct oq as [q |].
      + destruct Hoq as (_ & _ & Hnext & [n Hn] & _).
        apply fixedRoute_nextHop_cases in Hnext as [(_ & _ & Hnone) | Hcons];
          [congruence |].
        exists (consumed ++ [node q]). split.
        * rewrite <- app_assoc. simpl. rewrite <- Hcons, Hr1. exact Hr0.
        * simpl. rewrite filter_app, Hhops, Hn. reflexivity.
      + simpl. rewrite app_nil_r. destruct Hoq as (_ & Hfull & Hnext).
        destruct (decide (queries w1 >= alpha)) as [Hge | Hlt].
        * exists consumed. rewrite (Hfull Hge), Hr1. tauto.
        * destruct Hnext as [tgt Hnext]; [lia |].
          apply fixedRoute_nextHop_cases in Hnext as [(Hnil & -> & _) | Hcons].
          -- exists consumed. rewrite <- Hnil, Hr1. tauto.
          -- exists (consumed ++ [None]). split.
             ++ rewrite <- app_assoc. simpl. rewrite <- Hcons, Hr1. exact Hr0.
             ++ rewrite filter_app, Hhops. simpl. rewrite app_nil_r. reflexivity.
    - destruct IH as (consumed & Hr0 & Hhops).
      rewrite hop_nodes_app. simpl. rewrite app_nil_r.
      apply handleResponse_step in Hh as (_ & Hadd & _).
      injection Hadd as <-. exists consumed. tauto. }
  split; [exact Hinv |].
  intros Hnonil w' oq Hadv. destruct Hinv as (consumed & Hr0 & Hhops).
  destruct (reachable_counter _ _ _ _ _ Hreach) as (Hcount & _).
  apply advance_step in Hadv
    as [(_ & _ & _ & Hi & _) | (w1 & Hhop & _ & _ & _ & Hq1 & _ & Hw1)];
    [discriminate Hi |].
  assert (Hr1 : route w1 = route w).
  { destruct Hw1 as [[_ ->] | [_ Hi]]; [reflexivity |]. injection Hi as ->.
    reflexivity. }
  apply advance_hop_step in Hhop as (_ & _ & _ & _ & Hdone & Hoq).
  destruct (decide (queries w1 >= alpha)) as [Hge | Hlt]; [discriminate Hdone |].
  destruct oq as [q |].
  - destruct Hoq as (_ & Hq' & _). symmetry in Hdone.
    apply bool_decide_eq_true in Hdone. lia.
  - destruct Hoq as (_ & _ & Hnext). destruct Hnext as [tgt Hnext]; [lia |].
    apply fixedRoute_nextHop_cases in Hnext as [(Hnil & -> & _) | Hcons].
    + split; [reflexivity |]. rewrite Hr1 in Hnil. rewrite Hnil, app_nil_r in Hr0.
      subst consumed. rewrite Hhops. apply filter_non_nil, Hnonil.
    + exfalso. apply Hnonil. rewrite Hr0, <- Hr1, Hcons.
      apply elem_of_app. right. left.
Qed.

Lemma fixed_route_hops_in_order_witness :
  (exists consumed,
     exampleRoute = consumed ++ route exampleWalk1
     /\ hop_nodes exampleHistory1 = filter (fun n : option Node => is_Some n) consumed)
  /\ (None ∉ exampleRoute ->
      forall w' oq, advance exampleWalk1 = (w', (oq, true)) ->
        route w' = [] /\ hop_nodes exampleHistory1 = exampleRoute).
Proof.
  exact (fixed_route_hops_in_order (testTable []) exampleRoute exampleWalk1
           [emptyQuery (testNode 1)] exampleHistory1 exampleWalk1_reachable).
Defined.

(** ** Walks over the lookup route *)

Lemma firstUnasked_unasked (asked : gmap Z bool) (es : list Node) (n : Node) :
  lookupRoute.firstUnasked asked es = Some n -> seen_has asked (nodeID n) = false.
Proof.
  induction es as [| e es IH]; simpl; [discriminate |].
  destruct (seen_has asked (nodeID e)) eqn:He; [exact IH |].
  intros [= <-]. exact He.
Qed.

Lemma exampleLookupWalk1_reachable :
  reachable exampleTable (lookupRoute.newLookupRouteV5 9) exampleLookupWalk1
            (option_list (advance exampleLookupWalk0).2.1) exampleLookupHistory1.
Proof.
  exact (reach_advance exampleTable (lookupRoute.newLookupRouteV5 9)
           exampleLookupWalk0 [] [] exampleLookupWalk1
           (advance exampleLookupWalk0).2.1 (advance exampleLookupWalk0).2.2
           (reach_new _ _) eq_refl).
Defined.

(** X4: a walk over a lookup route never queries the same node id twice:
    the ids of its hops are pairwise distinct, and each of them is marked
    in the [asked] map of the route. *)
Theorem lookup_walk_asks_once {Rng : Type} (tab0 : Table Rng) (r0 : lookupRoute.t)
    (w : walk Rng lookupRoute.t) (pending : list query) (h : list event) :
  reachable tab0 r0 w pending h ->
  NoDup (ptr_ids (hop_nodes h))
  /\ (forall id, id ∈ ptr_ids (hop_nodes h) ->
        seen_has (lookupRoute.asked (route w)) id = true).
Proof.
  intros Hreach.
  enough (Hinv : (inited w = false -> hop_nodes h = [])
                 /\ NoDup (ptr_ids (hop_nodes h))
                 /\ (forall id, id ∈ ptr_ids (hop_nodes h) ->
                       seen_has (lookupRoute.asked (route w)) id = true))
    by tauto.
  induction Hreach as [| w pending h w' oq done _ (IHi & IHnd & IHasked) Hadv
                       | w p1 q0 p2 h q w' _ (IHi & IHnd & IHasked) _ _ Hh].
  - simpl. split_and!; [reflexivity | apply NoDup_nil_2 |].
    intros id Hid. inversion Hid.
  - rewrite hop_nodes_app, ptr_ids_app.
    apply advance_step in Hadv
      as [(Hinit & -> & _ & _ & ->) | (w1 & Hhop & _ & _ & _ & _ & Hi1 & Hw1)].
    + simpl. rewrite app_nil_r, (IHi Hinit). simpl.
      split_and!; [reflexivity | apply NoDup_nil_2 |].
      intros id Hid. inversion Hid.
    + assert (H1 : forall id, id ∈ ptr_ids (hop_nodes h) ->
                seen_has (lookupRoute.asked (route w1)) id = true).
      { destruct Hw1 as [[_ ->] | [Hinit _]]; [exact IHasked |].
        rewrite (IHi Hinit). intros id Hid. inversion Hid. }
      apply advance_hop_step in Hhop as (_ & _ & _ & Hi' & _ & Hoq).
      split; [congruence |].
      destruct oq as [q |].
      * destruct Hoq as (_ & _ & Hnext & [n Hn] & _).
        simpl in Hnext. unfold lookupRoute.nextHop in Hnext.
        destruct (lookupRoute.firstUnasked _ _) as [m |] eqn:Hfirst.
        -- injection Hnext as Hr' Hm _. rewrite <- Hm in Hn. injection Hn as ->.
           apply firstUnasked_unasked in Hfirst.
           simpl. rewrite <- Hm. simpl. rewrite <- Hr'. simpl. split.
           ++ apply NoDup_app. split_and!; [exact IHnd | | apply NoDup_singleton].
              intros id Hold Hnew. apply list_elem_of_singleton in Hnew as ->.
              apply H1 in Hold. congruence.
           ++ intros id Hid. apply seen_has_insert.
              apply elem_of_app in Hid as [Hid | Hid]; [right; apply H1, Hid |].
              apply list_elem_of_singleton in Hid. tauto.
        -- injection Hnext as _ Hm _. congruence.
      * simpl. rewrite app_nil_r. split; [exact IHnd |].
        destruct Hoq as (_ & Hfull & Hnext).
        destruct (decide (queries w1 >= alpha)) as [Hge | Hlt].
        -- rewrite (Hfull Hge). exact H1.
        -- destruct Hnext as [tgt Hnext]; [lia |].
           simpl in Hnext. unfold lookupRoute.nextHop in Hnext.
           destruct (lookupRoute.firstUnasked _ _) as [m |];
             [discriminate | injection Hnext as <- _; exact H1].
  - rewrite hop_nodes_app. simpl. rewrite app_nil_r.
    apply handleResponse_step in Hh as (_ & Hadd & _ & Hi' & _).
    simpl in Hadd. unfold lookupRoute.addFoundNodes in Hadd.
    destruct (lookupRoute.pushAll _ _) as [l' |]; [| discriminate].
    injection Hadd as Hr'. rewrite <- Hr'. simpl.
    split_and!; [rewrite Hi'; exact IHi | exact IHnd | exact IHasked].
Qed.

Lemma lookup_walk_asks_once_witness :
  NoDup (ptr_ids (hop_nodes exampleLookupHistory1))
  /\ (forall id, id ∈ ptr_ids (hop_nodes exampleLookupHistory1) ->
        seen_has (lookupRoute.asked (route exampleLookupWalk1)) id = true).
Proof.
  exact (lookup_walk_asks_once exampleTable (lookupRoute.newLookupRouteV5 9)
           exampleLookupWalk1 _ exampleLookupHistory1 exampleLookupWalk1_reachable).
Defined.

(** ** Walks over the random route *)

Section RandomRouteNil.
Context {Rng : Type} `{!RandomSource Rng}.
Implicit Types (r : randomRoute.t Rng).

Lemma randomRoute_add_elem r (n x : option Node) :
  x ∈ randomRoute.buf (randomRoute.add r n) -> x ∈ randomRoute.buf r \/ x = n.
Proof.
  unfold randomRoute.add. case_decide.
  - simpl. rewrite elem_of_app, list_elem_of_singleton. tauto.
  - destruct (Intn _ _) as [i g']. simpl. intros Hin.
    apply list_elem_of_lookup_1 in Hin as [j Hj].
    apply list_lookup_insert_Some in Hj as [(_ & -> & _) | (_ & Hj)]; [tauto |].
    left. eapply list_elem_of_lookup_2, Hj.
Qed.

Lemma randomRoute_addFoundNodes_non_nil fuel r ns r' :
  None ∉ randomRoute.buf r -> None ∉ ns ->
  randomRoute.addFoundNodes fuel r ns = Some r' ->
  None ∉ randomRoute.buf r'.
Proof.
  intros Hbuf Hns Hadd.
  destruct (addFoundNodes_spec fuel r ns) as (H0 & H1 & H2 & _).
  destruct ns as [| n [| n' ns]].
  - rewrite H0 in Hadd by reflexivity. congruence.
  - rewrite (H1 n) in Hadd by reflexivity. injection Hadd as <-.
    intros Hin. apply randomRoute_add_elem in Hin as [Hin | <-]; [tauto |].
    apply Hns. left.
  - destruct (H2 ltac:(simpl; lia) r' Hadd)
      as (i1 & i2 & x1 & x2 & g & _ & Hx1 & Hx2 & ->).
    apply list_elem_of_lookup_2 in Hx1, Hx2.
    intros Hin. apply randomRoute_add_elem in Hin as [Hin | <-]; [| tauto].
    apply randomRoute_add_elem in Hin as [Hin | <-]; tauto.
Qed.

Lemma randomRoute_nextNode_non_nil r :
  None ∉ randomRoute.buf r ->
  (None ∉ randomRoute.buf (randomRoute.nextNode r).1)
  /\ ((randomRoute.nextNode r).2 = None ->
      randomRoute.buf r = [] /\ randomRoute.buf (randomRoute.nextNode r).1 = []).
Proof.
  intros Hbuf. destruct (nextNode_spec r) as [Hnil Hcons].
  destruct (randomRoute.buf r) as [| x l] eqn:Hr.
  - rewrite Hnil by reflexivity. simpl. rewrite Hr. split; [exact Hbuf | tauto].
  - destruct Hcons as (i & y & Hy & Hhop & Hdel & _); [discriminate |]. split.
    + rewrite Hdel. intros Hin. apply list_elem_of_delete_inv in Hin. tauto.
    + intros Hnone. exfalso. apply Hbuf. rewrite <- Hnone, Hhop.
      eapply list_elem_of_lookup_2, Hy.
Qed.

Lemma randomRoute_init_non_nil r (tab1 : Table Rng) :
  (None ∉ randomRoute.buf (randomRoute.init r tab1).1)
  /\ ((randomRoute.init r tab1).2 = false ->
      randomRoute.buf (randomRoute.init r tab1).1 = []).
Proof.
  simpl. unfold readRandomNodes. split.
  - intros Hin. apply subseteq_take in Hin.
    apply list_elem_of_fmap in Hin as (n & Hn & _). discriminate.
  - intros Hok. apply bool_decide_eq_false in Hok.
    destruct (take _ _); [reflexivity | simpl in Hok; lia].
Qed.

End RandomRouteNil.

Section RandomWalkDone.
Context {Rng R : Type} `{!RandomSource Rng} `{!Route Rng R}.

(** The route [R] is a random route variant: [base] is the embedded
    [randomRoute] and the methods are those of [randomRoute], [nextHop]
    answering what [nextNode] answers. *)
Variables (base : R -> randomRoute.t Rng) (fuel : nat).
Hypothesis variant_init : forall r (tab1 : Table Rng) r' ok,
  init r tab1 = (r', ok) ->
  base r' = (randomRoute.init (base r) tab1).1
  /\ ok = (randomRoute.init (base r) tab1).2.
Hypothesis variant_nextHop : forall r r' hop tgt,
  nextHop (Rng:=Rng) r = (r', (hop, tgt)) ->
  hop = (randomRoute.nextNode (base r)).2
  /\ randomRoute.buf (base r') = randomRoute.buf (randomRoute.nextNode (base r)).1.
Hypothesis variant_addFoundNodes : forall r ns r',
  addFoundNodes (Rng:=Rng) r ns = Some r' ->
  randomRoute.addFoundNodes fuel (base r) ns = Some (base r').

Variables (tab0 : Table Rng) (r0 : R).
Hypothesis new_non_nil : None ∉ randomRoute.buf (base r0).

Lemma random_walk_non_nil (w : walk Rng R) pending h :
  reachable tab0 r0 w pending h -> None ∉ randomRoute.buf (base (route w)).
Proof.
  induction 1 as [| w pending h w' oq done _ IH Hadv
                  | w p1 q0 p2 h q w' _ IH _ _ Hh].
  - exact new_non_nil.
  - assert (Hinit : forall r', init (route w) (tab w) = (r', true) \/
                                 init (route w) (tab w) = (r', false) ->
                      None ∉ randomRoute.buf (base r')).
    { intros r' [Hi | Hi]; apply variant_init in Hi as [-> _];
        apply randomRoute_init_non_nil. }
    apply advance_step in Hadv
      as [(_ & _ & _ & Hi & ->) | (w1 & Hhop & _ & _ & _ & _ & _ & Hw1)].
    + simpl. apply Hinit. tauto.
    + assert (H1 : None ∉ randomRoute.buf (base (route w1))).
      { destruct Hw1 as [[_ ->] | [_ Hi]]; [exact IH | apply Hinit; tauto]. }
      apply advance_hop_step in Hhop as (_ & _ & _ & _ & _ & Hoq).
      destruct oq as [q |].
      * destruct Hoq as (_ & _ & Hnext & _).
        apply variant_nextHop in Hnext as [_ ->].
        apply randomRoute_nextNode_non_nil, H1.
      * destruct Hoq as (_ & Hfull & Hnext).
        destruct (decide (queries w1 >= alpha)) as [Hge | Hlt];
          [rewrite (Hfull Hge); exact H1 |].
        destruct Hnext as [tgt Hnext]; [lia |].
        apply variant_nextHop in Hnext as [_ ->].
        apply randomRoute_nextNode_non_nil, H1.
  - apply handleResponse_step in Hh as (Hc & Hadd & _).
    apply collectNovel_spec in Hc as (_ & Hnil & _).
    apply variant_addFoundNodes in Hadd.
    exact (randomRoute_addFoundNodes_non_nil fuel _ _ _ IH Hnil Hadd).
Qed.

Lemma random_walk_done (w : walk Rng R) pending h w' oq :
  reachable tab0 r0 w pending h ->
  advance w = (w', (oq, true)) ->
  randomRoute.buf (base (route w')) = [] /\ queries w' = 0 /\ oq = None.
Proof.
  intros Hreach Hadv.
  pose proof (random_walk_non_nil _ _ _ Hreach) as Hnil.
  destruct (reachable_counter _ _ _ _ _ Hreach) as (Hq & _ & Hi).
  apply advance_step in Hadv
    as [(Hinit & -> & _ & Hinit' & ->) | (w1 & Hhop & _ & _ & _ & Hq1 & _ & Hw1)].
  - simpl. apply variant_init in Hinit' as [-> Hok].
    split_and!; [| rewrite Hq, (Hi Hinit); reflexivity | reflexivity].
    apply randomRoute_init_non_nil. congruence.
  - assert (H1 : None ∉ randomRoute.buf (base (route w1))).
    { destruct Hw1 as [[_ ->] | [_ Hinit]]; [exact Hnil |].
      apply variant_init in Hinit as [-> _]. apply randomRoute_init_non_nil. }
    apply advance_hop_step in Hhop as (_ & _ & _ & _ & Hdone & Hoq).
    destruct (decide (queries w1 >= alpha)) as [Hge | Hlt]; [discriminate Hdone |].
    symmetry in Hdone. apply bool_decide_eq_true in Hdone.
    destruct oq as [q |]; [destruct Hoq as (_ & Hq' & _); lia |].
    destruct Hoq as (_ & _ & Hnext). destruct Hnext as [tgt Hnext]; [lia |].
    apply variant_nextHop in Hnext as [Hhop ->].
    split_and!; [| exact Hdone | reflexivity].
    apply randomRoute_nextNode_non_nil; [exact H1 | congruence].
Qed.

End RandomWalkDone.

(** X5: a random walk (v4 or v5) never holds a nil entry in its buffer,
    and its [advance] answers [done = true] only with an empty buffer, no
    query in flight and no query emitted; conversely an inited random walk
    with an empty buffer and no query in flight answers [(nil, true)]. *)
Theorem random_walk_done_when_empty {Rng : Type} `{!RandomSource Rng}
    (fuel : nat) (tab0 : Table Rng) (g : Rng) :
  (forall w pending h,
     reachable (Route0 := randomRouteV4_Route fuel) tab0
               (randomRoute.newRandomRouteV4 g) w pending h ->
     (None ∉ randomRoute.buf (randomRoute.baseV4 (route w)))
     /\ (forall w' oq,
           advance (Route0 := randomRouteV4_Route fuel) w = (w', (oq, true)) ->
           randomRoute.buf (randomRoute.baseV4 (route w')) = []
           /\ queries w' = 0 /\ oq = None)
     /\ (inited w = true -> randomRoute.buf (randomRoute.baseV4 (route w)) = [] ->
         queries w = 0 ->
         (advance (Route0 := randomRouteV4_Route fuel) w).2 = (None, true)))
  /\ (forall w pending h,
        reachable (Route0 := randomRouteV5_Route fuel) tab0
                  (randomRoute.newRandomRouteV5 g) w pending h ->
        (None ∉ randomRoute.buf (randomRoute.baseV5 (route w)))
        /\ (forall w' oq,
              advance (Route0 := randomRouteV5_Route fuel) w = (w', (oq, true)) ->
              randomRoute.buf (randomRoute.baseV5 (route w')) = []
              /\ queries w' = 0 /\ oq = None)
        /\ (inited w = true -> randomRoute.buf (randomRoute.baseV5 (route w)) = [] ->
            queries w = 0 ->
            (advance (Route0 := randomRouteV5_Route fuel) w).2 = (None, true))).
Proof.
  split.
  - assert (Hinit : forall r (tab1 : Table Rng) r' ok,
              init (Route := randomRouteV4_Route fuel) r tab1 = (r', ok) ->
              randomRoute.baseV4 r' = (randomRoute.init (randomRoute.baseV4 r) tab1).1
              /\ ok = (randomRoute.init (randomRoute.baseV4 r) tab1).2).
    { intros r tab1 r' ok. simpl. intros [= <- <-]. split; reflexivity. }
    assert (Hnext : forall r r' hop tgt,
              nextHop (Route := randomRouteV4_Route fuel) r = (r', (hop, tgt)) ->
              hop = (randomRoute.nextNode (randomRoute.baseV4 r)).2
              /\ randomRoute.buf (randomRoute.baseV4 r')
                 = randomRoute.buf (randomRoute.nextNode (randomRoute.baseV4 r)).1).
    { intros r r' hop tgt. simpl. unfold randomRoute.nextHopV4.
      destruct (randomRoute.nextNode (randomRoute.baseV4 r)) as [b [m |]].
      - destruct (Read _ _) as [key g']. intros [= <- <- <-]. split; reflexivity.
      - intros [= <- <- <-]. split; reflexivity. }
    assert (Hadd : forall r ns r',
              addFoundNodes (Route := randomRouteV4_Route fuel) r ns = Some r' ->
              randomRoute.addFoundNodes fuel (randomRoute.baseV4 r) ns
              = Some (randomRoute.baseV4 r')).
    { intros r ns r'. simpl.
      destruct (randomRoute.addFoundNodes fuel (randomRoute.baseV4 r) ns);
        [| discriminate].
      simpl. intros [= <-]. reflexivity. }
    intros w pending h Hreach. split_and!.
    + exact (random_walk_non_nil (Route0 := randomRouteV4_Route fuel)
               randomRoute.baseV4 fuel Hinit Hnext Hadd tab0
               (randomRoute.newRandomRouteV4 g) (not_elem_of_nil _) w pending h Hreach).
    + intros w' oq Hadv.
      exact (random_walk_done (Route0 := randomRouteV4_Route fuel)
               randomRoute.baseV4 fuel Hinit Hnext Hadd tab0
               (randomRoute.newRandomRouteV4 g) (not_elem_of_nil _) w pending h w' oq Hreach Hadv).
    + intros Hi Hbuf Hq. unfold advance. rewrite Hi. unfold advance_hop.
      rewrite Hq. simpl. unfold randomRoute.nextHopV4, randomRoute.nextNode.
      rewrite Hbuf. reflexivity.
  - assert (Hinit : forall r (tab1 : Table Rng) r' ok,
              init (Route := randomRouteV5_Route fuel) r tab1 = (r', ok) ->
              randomRoute.baseV5 r' = (randomRoute.init (randomRoute.baseV5 r) tab1).1
              /\ ok = (randomRoute.init (randomRoute.baseV5 r) tab1).2).
    { intros r tab1 r' ok. simpl. intros [= <- <-]. split; reflexivity. }
    assert (Hnext : forall r r' hop tgt,
              nextHop (Route := randomRouteV5_Route fuel) r = (r', (hop, tgt)) ->
              hop = (randomRoute.nextNode (randomRoute.baseV5 r)).2
              /\ randomRoute.buf (randomRoute.baseV5 r')
                 = randomRoute.buf (randomRoute.nextNode (randomRoute.baseV5 r)).1).
    { intros r r' hop tgt. simpl. unfold randomRoute.nextHopV5.
      destruct (randomRoute.nextNode (randomRoute.baseV5 r)) as [b m].
      intros [= <- <- <-]. split; reflexivity. }
    assert (Hadd : forall r ns r',
              addFoundNodes (Route := randomRouteV5_Route fuel) r ns = Some r' ->
              randomRoute.addFoundNodes fuel (randomRoute.baseV5 r) ns
              = Some (randomRoute.baseV5 r')).
    { intros r ns r'. simpl.
      destruct (randomRoute.addFoundNodes fuel (randomRoute.baseV5 r) ns);
        [| discriminate].
      simpl. intros [= <-]. reflexivity. }
    intros w pending h Hreach. split_and!.
    + exact (random_walk_non_nil (Route0 := randomRouteV5_Route fuel)
               randomRoute.baseV5 fuel Hinit Hnext Hadd tab0
               (randomRoute.newRandomRouteV5 g) (not_elem_of_nil _) w pending h Hreach).
    + intros w' oq Hadv.
      exact (random_walk_done (Route0 := randomRouteV5_Route fuel)
               randomRoute.baseV5 fuel Hinit Hnext Hadd tab0
               (randomRoute.newRandomRouteV5 g) (not_elem_of_nil _) w pending h w' oq Hreach Hadv).
    + intros Hi Hbuf Hq. unfold advance. rewrite Hi. unfold advance_hop.
      rewrite Hq. simpl. unfold randomRoute.nextHopV5, randomRoute.nextNode.
      rewrite Hbuf. reflexivity.
Qed.

(** ** The shape of [lookupDistances] *)

Lemma lookupDistances_shape_check_all :
  forallb lookupDistances_shape_check (seq 0 257) = true.
Proof. vm_compute. reflexivity. Qed.

(** X6: for valid ids [lookupDistances] names exactly
    [lookupRequestLimit] distances, pairwise distinct, the first of them
    the log distance of target and destination, all within [[0, 256]] and
    at most two steps away from that log distance. *)
Theorem lookupDistances_three_distinct (fuel : nat) (target dest : enode.ID) :
  enode.validID target -> enode.validID dest -> (2 <= fuel)%nat ->
  exists dists,
    lookupDistances fuel target dest = Some dists
    /\ length dists = lookupRequestLimit
    /\ NoDup dists
    /\ head dists = Some (enode.LogDist target dest)
    /\ Forall (fun d => 0 <= d <= 256
                        /\ enode.LogDist target dest - 2 <= d
                           <= enode.LogDist target dest + 2) dists.
Proof.
  intros Ht Hd Hfuel.
  pose proof (LogDist_range target dest Ht Hd) as Hrange.
  exists (lookupDistances_code (enode.LogDist target dest)).
  split; [unfold lookupDistances; apply lookupDistances_from_code; assumption |].
  pose proof lookupDistances_shape_check_all as Hall.
  rewrite forallb_forall in Hall.
  specialize (Hall (Z.to_nat (enode.LogDist target dest))).
  unfold lookupDistances_shape_check in Hall.
  rewrite Z2Nat.id in Hall by lia.
  eapply bool_decide_eq_true_1. apply Hall, in_seq. lia.
Qed.

Lemma lookupDistances_three_distinct_witness :
  exists dists,
    lookupDistances 2 0 (2 ^ 254) = Some dists
    /\ length dists = lookupRequestLimit
    /\ NoDup dists
    /\ head dists = Some (enode.LogDist 0 (2 ^ 254))
    /\ Forall (fun d => 0 <= d <= 256
                        /\ enode.LogDist 0 (2 ^ 254) - 2 <= d
                           <= enode.LogDist 0 (2 ^ 254) + 2) dists.
Proof.
  apply (lookupDistances_three_distinct 2 0 (2 ^ 254)).
  - unfold enode.validID. lia.
  - unfold enode.validID. lia.
  - lia.
Defined.

(** * Properties of the simulated network *)

Lemma LogDist_refl (a : enode.ID) : enode.LogDist a a = 0.
Proof. unfold enode.LogDist. case_decide; [reflexivity | congruence]. Qed.

Lemma existsb_same_id (b : list Node) (x : Node) :
  existsb (fun e => bool_decide (nodeID e = nodeID x)) b = false ->
  nodeID x ∉ nodeID <$> b.
Proof.
  intros Hex Hin. apply list_elem_of_fmap in Hin as (e & He & Hin).
  assert (existsb (fun e => bool_decide (nodeID e = nodeID x)) b = true); [| congruence].
  apply existsb_exists. exists e. split; [apply list_elem_of_In, Hin |].
  apply bool_decide_eq_true. congruence.
Qed.

Section RouteSimKad.
Variables (nBuckets : nat) (bucketMinDistance : Z).
Implicit Types (kad : routeSim.routeSimKad) (x n : Node).

Lemma addNode_step kad x kad' ok :
  routeSim.addNode bucketMinDistance kad x = Some (kad', ok) ->
  routeSim.self kad' = routeSim.self kad
  /\ (ok = false -> kad' = kad)
  /\ (ok = true ->
      enode.LogDist (nodeID x) (nodeID (routeSim.self kad)) <> 0
      /\ exists b,
           routeSim.bucket bucketMinDistance kad
             (enode.LogDist (nodeID x) (nodeID (routeSim.self kad))) = Some b
           /\ (length b < bucketSize)%nat
           /\ (nodeID x ∉ nodeID <$> b)
           /\ routeSim.buckets kad'
              = <[Z.to_nat (routeSim.bucketIndex bucketMinDistance
                              (enode.LogDist (nodeID x) (nodeID (routeSim.self kad))))
                  := b ++ [x]]> (routeSim.buckets kad)).
Proof.
  unfold routeSim.addNode.
  case_decide as Hd; [intros [= <- <-]; split_and!; [reflexivity | reflexivity | discriminate] |].
  destruct (routeSim.bucket _ _ _) as [b |] eqn:Hb; [| discriminate].
  case_decide as Hlen;
    [intros [= <- <-]; split_and!; [reflexivity | reflexivity | discriminate] |].
  destruct (existsb _ b) eqn:Hex;
    [intros [= <- <-]; split_and!; [reflexivity | reflexivity | discriminate] |].
  intros [= <- <-]. simpl. split_and!; [reflexivity | discriminate |].
  intros _. split; [exact Hd |]. exists b.
  split_and!; [reflexivity | lia | apply existsb_same_id, Hex | reflexivity].
Qed.

(** X7: in a table built by [addNode] for the node [n] the array keeps
    its [nBuckets] buckets, every bucket holds at most [bucketSize]
    nodes with pairwise distinct ids, none of them [n] itself, and every
    node sits in the bucket [bucket] computes for its log distance to
    [n]. *)
Theorem kad_buckets_well_formed (n : Node) kad :
  routeSim.kadReachable nBuckets bucketMinDistance n kad ->
  routeSim.self kad = n
  /\ length (routeSim.buckets kad) = nBuckets
  /\ (forall i b, routeSim.buckets kad !! i = Some b ->
        (length b <= bucketSize)%nat
        /\ NoDup (nodeID <$> b)
        /\ (forall y, y ∈ b ->
              nodeID y <> nodeID n
              /\ Z.to_nat (routeSim.bucketIndex bucketMinDistance
                             (enode.LogDist (nodeID y) (nodeID n))) = i)).
Proof.
  induction 1 as [| kad x kad' ok _ (IHself & IHlen & IHb) Hadd].
  - simpl. split_and!; [reflexivity | apply length_replicate |].
    intros i b Hb. apply lookup_replicate in Hb as [-> _].
    split_and!; [simpl; lia | apply NoDup_nil_2 |]. intros y Hy. inversion Hy.
  - apply addNode_step in Hadd as (Hself & Hno & Hyes).
    destruct ok; [| rewrite (Hno eq_refl); tauto].
    destruct (Hyes eq_refl) as (Hd & b & Hb & Hlen & Hfresh & ->).
    rewrite IHself in *. clear Hno Hyes.
    split_and!; [congruence | rewrite length_insert; exact IHlen |].
    intros i b' Hb'. unfold routeSim.bucket in Hb.
    apply list_lookup_insert_Some in Hb' as [(<- & <- & _) | (_ & Hb')];
      [| apply IHb, Hb'].
    destruct (IHb _ _ Hb) as (IHl & IHnd & IHin).
    split_and!.
    + rewrite length_app. simpl. lia.
    + rewrite fmap_app. apply NoDup_app. split_and!; [exact IHnd | | apply NoDup_singleton].
      intros id Hid Hx. apply list_elem_of_singleton in Hx as ->. tauto.
    + intros y Hy. apply elem_of_app in Hy as [Hy | Hy]; [apply IHin, Hy |].
      apply list_elem_of_singleton in Hy as ->. split; [| reflexivity].
      intros Heq. apply Hd. rewrite Heq. apply LogDist_refl.
Qed.

Lemma takeInto_spec (nodes : list Node) :
  forall (result : list Node) (limit : Z),
    (Z.of_nat (length result) <= limit) ->
    routeSim.takeInto result limit nodes
    = (take (Z.to_nat limit) (result ++ nodes),
       bool_decide (limit < Z.of_nat (length result + length nodes))).
Proof.
  induction nodes as [| x nodes IH]; intros result limit Hlen; simpl.
  - rewrite app_nil_r, take_ge by lia. f_equal.
    symmetry. apply bool_decide_eq_false. lia.
  - case_decide as Hfull.
    + rewrite take_app_le by lia. rewrite take_ge by lia. f_equal.
      symmetry. apply bool_decide_eq_true. lia.
    + rewrite IH by (rewrite length_app; simpl; lia).
      rewrite <- app_assoc. simpl. f_equal.
      apply bool_decide_ext. rewrite length_app. simpl. lia.
Qed.

Lemma getBucketNodes_loop_spec kad (limit : Z) (bd : list Z) :
  forall result,
    (Z.of_nat (length result) <= limit) ->
    (forall d, d ∈ bd -> is_Some (routeSim.bucket bucketMinDistance kad d)) ->
    routeSim.getBucketNodes_loop bucketMinDistance kad result limit bd
    = Some (take (Z.to_nat limit)
              (result ++ flat_map (fun d => default []
                                     (routeSim.bucket bucketMinDistance kad d)) bd)).
Proof.
  induction bd as [| d bd IH]; intros result Hlen Hbd; simpl.
  - rewrite app_nil_r, take_ge by lia. reflexivity.
  - destruct (Hbd d) as [b Hb]; [left |]. rewrite Hb. simpl.
    rewrite takeInto_spec by exact Hlen.
    case_bool_decide as Hret.
    + f_equal. rewrite app_assoc. rewrite (take_app_le (result ++ b)); [reflexivity |].
      rewrite length_app. lia.
    + rewrite take_ge by (rewrite length_app; lia).
      rewrite IH; [rewrite <- app_assoc; reflexivity | rewrite length_app; lia |].
      intros d' Hd'. apply Hbd. right. exact Hd'.
Qed.

(** X8: when every named distance has a bucket, [getBucketNodes] answers
    the first [n] nodes of the named buckets laid end to end, in the
    order the distances are named (a bucket named twice is laid out
    twice); it panics for a negative [n]. *)
Theorem getBucketNodes_prefix kad (bd : list Z) (limit : Z) :
  (forall d, d ∈ bd -> is_Some (routeSim.bucket bucketMinDistance kad d)) ->
  (limit < 0 -> routeSim.getBucketNodes bucketMinDistance kad bd limit = None)
  /\ (0 <= limit ->
      routeSim.getBucketNodes bucketMinDistance kad bd limit
      = Some (take (Z.to_nat limit)
                (flat_map (fun d => default []
                                      (routeSim.bucket bucketMinDistance kad d)) bd))).
Proof.
  intros Hbd. unfold routeSim.getBucketNodes. split; intros Hlimit.
  - case_decide; [reflexivity | lia].
  - case_decide; [lia |]. apply (getBucketNodes_loop_spec kad limit bd []); [simpl; lia |].
    exact Hbd.
Qed.

End RouteSimKad.

Lemma exampleKad_reachable : routeSim.kadReachable 17 239 (testNode 0) exampleKad.
Proof.
  apply (routeSim.kad_addNode 17 239 (testNode 0) exampleKad1 (testNode (2 ^ 255))
           exampleKad true); [| reflexivity].
  apply (routeSim.kad_addNode 17 239 (testNode 0) exampleKad0 (testNode 1)
           exampleKad1 true); [| reflexivity].
  apply routeSim.kad_new.
Defined.

Lemma kad_buckets_well_formed_witness :
  routeSim.self exampleKad = testNode 0
  /\ length (routeSim.buckets exampleKad) = 17%nat
  /\ (forall i b, routeSim.buckets exampleKad !! i = Some b ->
        (length b <= bucketSize)%nat
        /\ NoDup (nodeID <$> b)
        /\ (forall y, y ∈ b ->
              nodeID y <> nodeID (testNode 0)
              /\ Z.to_nat (routeSim.bucketIndex 239
                             (enode.LogDist (nodeID y) (nodeID (testNode 0)))) = i)).
Proof.
  exact (kad_buckets_well_formed 17 239 (testNode 0) exampleKad exampleKad_reachable).
Defined.

Lemma exampleKad_buckets (d : Z) :
  d ∈ [256; 1; 2] -> is_Some (routeSim.bucket 239 exampleKad d).
Proof.
  intros Hd. repeat (apply elem_of_cons in Hd as [-> | Hd]; [eexists; reflexivity |]).
  inversion Hd.
Defined.

Lemma getBucketNodes_prefix_witness :
  (2 < 0 -> routeSim.getBucketNodes 239 exampleKad [256; 1; 2] 2 = None)
  /\ (0 <= 2 ->
      routeSim.getBucketNodes 239 exampleKad [256; 1; 2] 2
      = Some (take (Z.to_nat 2)
                (flat_map (fun d => default [] (routeSim.bucket 239 exampleKad d))
                          [256; 1; 2]))).
Proof.
  exact (getBucketNodes_prefix 239 exampleKad [256; 1; 2] 2 exampleKad_buckets).
Defined.

Section RouteSimNetwork.
Variables (nBuckets : nat) (bucketMinDistance : Z).
Implicit Types (kad : routeSim.routeSimKad) (rs : routeSim.t).

(** X9: with [nBuckets = 256 - bucketMinDistance] buckets, [bucket] has a
    bucket for a distance exactly when the distance is at most 256 (a
    larger one indexes the array out of range), and the distances that
    share the first bucket are those up to [bucketMinDistance + 1]. *)
Theorem bucket_defined_up_to_256 kad (d : Z) :
  0 <= bucketMinDistance < 256 ->
  Z.of_nat nBuckets = 256 - bucketMinDistance ->
  length (routeSim.buckets kad) = nBuckets ->
  0 <= d ->
  (is_Some (routeSim.bucket bucketMinDistance kad d) <-> d <= 256)
  /\ (routeSim.bucketIndex bucketMinDistance d = 0 <-> d <= bucketMinDistance + 1).
Proof.
  intros Hmin Hn Hlen Hd. unfold routeSim.bucket, routeSim.bucketIndex.
  rewrite lookup_lt_is_Some, Hlen. case_decide; split; lia.
Qed.

Lemma getBucketNodes_loop_length kad (limit : Z) (bd : list Z) :
  forall result out,
    Z.of_nat (length result) <= limit ->
    routeSim.getBucketNodes_loop bucketMinDistance kad result limit bd = Some out ->
    Z.of_nat (length out) <= limit
    /\ (forall x, x ∈ out -> x ∈ result \/ x ∈ concat (routeSim.buckets kad)).
Proof.
  induction bd as [| d bd IH]; intros result out Hlen; simpl.
  - intros [= <-]. split; [exact Hlen | tauto].
  - destruct (routeSim.bucket bucketMinDistance kad d) as [b |] eqn:Hb; [| discriminate].
    rewrite takeInto_spec by exact Hlen.
    assert (Hsub : forall x, x ∈ result ++ b ->
              x ∈ result \/ x ∈ concat (routeSim.buckets kad)).
    { intros x Hx. apply elem_of_app in Hx as [Hx | Hx]; [tauto |]. right.
      apply list_elem_of_In, in_concat. exists b.
      split; apply list_elem_of_In; [eapply list_elem_of_lookup_2, Hb | exact Hx]. }
    case_bool_decide as Hret.
    + intros [= <-]. split.
      * rewrite length_take. lia.
      * intros x Hx. apply Hsub. eapply subseteq_take, Hx.
    + rewrite take_ge by (rewrite length_app; lia). intros Hrec.
      apply IH in Hrec as [Hout Hin]; [| rewrite length_app; lia].
      split; [exact Hout |]. intros x Hx.
      destruct (Hin x Hx) as [Hx' | Hx']; [apply Hsub, Hx' | tauto].
Qed.

(** X10: the simulated transport fills in response fields only, so the
    completed query is the emitted one as far as the walk is concerned.
    For a node that is not in the network it sets the error and leaves
    the response as it was; the walk then forwards nothing for an emitted
    query and reports [success = false].  For a node of the network it
    sets no error; asked for bucket distances it answers at most
    [bucketSize] nodes, none nil, all from the buckets of that node; and
    asked with a target that is neither bucket distances nor a key (a v5
    lookup target, say) it leaves the query as it is. *)
Theorem runLookupQuery_fills_response (keyID : list Z -> enode.ID) rs (q q' : query) :
  routeSim.runLookupQuery bucketMinDistance keyID rs q = Some q' ->
  node q' = node q /\ target q' = target q
  /\ exists n,
       node q = Some n
       /\ match routeSim.network rs !! nodeID n with
          | None =>
              err q' = Some "node not found"%string /\ resp q' = resp q
              /\ forall (Rng R : Type) (Hroute : Route Rng R) (w w' : walk Rng R),
                   resp q = [] -> handleResponse w q' = Some w' ->
                   replyBuffer w' = [] /\ seen w' = seen w
                   /\ tracked (tab w')
                      = tracked (tab w) ++ [mkTracked (Some n) false []]
          | Some kad =>
              err q' = err q
              /\ (forall dists, target q = TargetDists dists ->
                    (length (resp q') <= bucketSize)%nat
                    /\ (None ∉ resp q')
                    /\ forall x, Some x ∈ resp q' -> x ∈ concat (routeSim.buckets kad))
              /\ (forall id, target q = TargetID id -> q' = q)
              /\ (target q = TargetNil -> q' = q)
          end.
Proof.
  unfold routeSim.runLookupQuery.
  destruct (node q) as [n |] eqn:Hnode; [| discriminate].
  destruct (routeSim.network rs !! nodeID n) as [kad |] eqn:Hkad.
  - destruct (target q) as [| key | id | dists] eqn:Htarget.
    + intros [= <-]. split; [exact Hnode |]. split; [exact Htarget |].
      exists n. rewrite Hkad.
      split_and!; intros; first [reflexivity | congruence].
    + intros [= <-]. simpl. split; [reflexivity |]. split; [reflexivity |].
      exists n. rewrite Hkad.
      split_and!; intros; first [reflexivity | congruence].
    + intros [= <-]. split; [exact Hnode |]. split; [exact Htarget |].
      exists n. rewrite Hkad.
      split_and!; intros; first [reflexivity | congruence].
    + unfold routeSim.getBucketNodes. case_decide; [discriminate |].
      destruct (routeSim.getBucketNodes_loop _ _ _ _ _) as [ns |] eqn:Hloop;
        [| discriminate].
      apply getBucketNodes_loop_length in Hloop as [Hlen Hin]; [| simpl; lia].
      intros [= <-]. simpl. split; [reflexivity |]. split; [reflexivity |].
      exists n. rewrite Hkad. split; [reflexivity |]. split; [reflexivity |].
      split; [| split; intros; congruence].
      intros dists' _. rewrite length_fmap. split_and!; [lia | |].
      * intros Hnil. apply list_elem_of_fmap in Hnil as (x & Hx & _). discriminate.
      * intros x Hx. apply list_elem_of_fmap in Hx as (y & [= ->] & Hy).
        destruct (Hin y Hy) as [Hres | Hb]; [inversion Hres | exact Hb].
  - intros [= <-]. simpl. split; [reflexivity |]. split; [reflexivity |].
    exists n. rewrite Hkad. split; [reflexivity |]. split; [reflexivity |].
    split; [reflexivity |].
    intros Rng R Hroute w w' Hresp Hh.
    apply handleResponse_step in Hh as (Hc & _ & _ & _ & Ht).
    simpl in Hc, Ht. rewrite Hresp in Hc, Ht. simpl in Hc. injection Hc as Hs Hb.
    rewrite Ht, <- Hs, <- Hb. simpl. tauto.
Qed.

End RouteSimNetwork.

Lemma bucket_defined_up_to_256_witness :
  (is_Some (routeSim.bucket 239 exampleKad 256) <-> 256 <= 256)
  /\ (routeSim.bucketIndex 239 256 = 0 <-> 256 <= 239 + 1).
Proof.
  apply (bucket_defined_up_to_256 17 239 exampleKad 256); [lia | reflexivity | reflexivity | lia].
Defined.

Lemma runLookupQuery_fills_response_witness :
  let q := emptyQuery (testNode 1) in
  let q' := mkQuery TargetNil (Some (testNode 1)) (Some "node not found"%string) [] in
  node q' = node q /\ target q' = target q
  /\ exists n,
       node q = Some n
       /\ match routeSim.network exampleSim !! nodeID n with
          | None =>
              err q' = Some "node not found"%string /\ resp q' = resp q
              /\ forall (Rng R : Type) (Hroute : Route Rng R) (w w' : walk Rng R),
                   resp q = [] -> handleResponse w q' = Some w' ->
                   replyBuffer w' = [] /\ seen w' = seen w
                   /\ tracked (tab w')
                      = tracked (tab w) ++ [mkTracked (Some n) false []]
          | Some kad =>
              err q' = err q
              /\ (forall dists, target q = TargetDists dists ->
                    (length (resp q') <= bucketSize)%nat
                    /\ (None ∉ resp q')
                    /\ forall x, Some x ∈ resp q' -> x ∈ concat (routeSim.buckets kad))
              /\ (forall id, target q = TargetID id -> q' = q)
              /\ (target q = TargetNil -> q' = q)
          end.
Proof.
  exact (runLookupQuery_fills_response 239 (fun _ => 0) exampleSim
           (emptyQuery (testNode 1))
           (mkQuery TargetNil (Some (testNode 1)) (Some "node not found"%string) [])
           eq_refl).
Defined.

Section RouteSimConnect.
Variables (nBuckets : nat) (bucketMinDistance : Z).
Implicit Types (kad : routeSim.routeSimKad) (rs : routeSim.t).

Lemma connect_step rs (n1 n2 : enode.ID) rs' :
  routeSim.connect bucketMinDistance rs n1 n2 = Some rs' ->
  n1 <> n2
  /\ routeSim.ids rs' = routeSim.ids rs
  /\ exists tab1 kad2 tab1' ok,
       routeSim.network rs !! n1 = Some tab1
       /\ routeSim.network rs !! n2 = Some kad2
       /\ routeSim.addNode bucketMinDistance tab1 (routeSim.self kad2) = Some (tab1', ok)
       /\ routeSim.network rs' = <[n1 := tab1']> (routeSim.network rs).
Proof.
  unfold routeSim.connect. case_decide as Hne; [discriminate |].
  destruct (routeSim.network rs !! n1) as [tab1 |] eqn:H1; [| discriminate].
  destruct (routeSim.network rs !! n2) as [kad2 |] eqn:H2; [| discriminate].
  destruct (routeSim.addNode _ _ _) as [[tab1' ok] |] eqn:Hadd; [| discriminate].
  intros [= <-]. simpl. split_and!; [exact Hne | reflexivity |].
  exists tab1, kad2, tab1', ok. tauto.
Qed.

Lemma connect_keeps_network rs (n1 n2 : enode.ID) rs' :
  networkOk nBuckets bucketMinDistance rs ->
  routeSim.connect bucketMinDistance rs n1 n2 = Some rs' ->
  networkOk nBuckets bucketMinDistance rs'
  /\ n1 <> n2
  /\ routeSim.ids rs' = routeSim.ids rs
  /\ (forall id, is_Some (routeSim.network rs' !! id)
                 <-> is_Some (routeSim.network rs !! id)).
Proof.
  intros Hok Hc.
  apply connect_step in Hc as (Hne & Hids & tab1 & kad2 & tab1' & ok & H1 & H2 & Hadd & Hnet).
  destruct (Hok _ _ H1) as [Hself1 Hreach1].
  pose proof (addNode_step _ _ _ _ _ Hadd) as (Hself & _).
  split_and!; [| exact Hne | exact Hids |].
  - intros id kad. rewrite Hnet.
    destruct (decide (n1 = id)) as [<- | Hid].
    + rewrite lookup_insert_eq. intros [= <-]. rewrite Hself. split; [exact Hself1 |].
      eapply routeSim.kad_addNode; eassumption.
    + rewrite lookup_insert_ne by exact Hid. apply Hok.
  - intros id. rewrite Hnet. destruct (decide (n1 = id)) as [<- | Hid].
    + rewrite lookup_insert_eq, H1. split; eauto.
    + rewrite lookup_insert_ne by exact Hid. reflexivity.
Qed.

Lemma connectSide_first_panics {Rng : Type} `{!RandomSource Rng}
    rs (id : enode.ID) (rest : list Z) (steps : list Z) :
  routeSim.ids rs = id :: rest ->
  routeSim.connectSide bucketMinDistance rs id (fun i => 0 - i) (1 :: steps) = None.
Proof.
  intros Hids. simpl. rewrite Hids. simpl length.
  destruct rest as [| x rest].
  - simpl. unfold routeSim.crossConnect, routeSim.connect.
    case_decide; [reflexivity | contradiction].
  - assert (Hrem : Z.rem (0 - 1) (Z.of_nat (S (length (x :: rest)))) = -1).
    { change (0 - 1) with (- (1)). rewrite Z.rem_opp_l by lia.
      rewrite Z.rem_small by (simpl length; lia). reflexivity. }
    rewrite Hrem. reflexivity.
Qed.

(** X12: the connect phase of [newRouteSim] panics on every network that
    has a node.  For the first node the index of its nearest left
    neighbour, [(0 - 1) % len(rs.ids)], is [-1], which is out of range;
    in a network of one node it is [0], the node itself, and connecting a
    node to itself panics.  Only a network without nodes is connected. *)
Theorem connect_phase_panics {Rng : Type} `{!RandomSource Rng}
    (fuel : nat) rs (g : Rng) :
  (routeSim.ids rs <> [] -> routeSim.connectNodes bucketMinDistance fuel rs g = None)
  /\ (routeSim.ids rs = [] ->
      routeSim.connectNodes bucketMinDistance fuel rs g = Some (rs, g)).
Proof.
  unfold routeSim.connectNodes. split; intros Hids.
  - destruct (routeSim.ids rs) as [| id rest] eqn:Hrs; [contradiction |].
    cbn [routeSim.connectFrom]. change (Z.of_nat <$> seq 1 15)
      with (1 :: (Z.of_nat <$> seq 2 14)).
    rewrite (connectSide_first_panics rs id rest _ Hrs). reflexivity.
  - rewrite Hids. reflexivity.
Qed.

End RouteSimConnect.

(** * Further properties of the routes *)

Section RandomRouteGrowth.
Context {Rng : Type} `{!RandomSource Rng}.
Implicit Types (r : randomRoute.t Rng).

Lemma add_length_exact r (n : option Node) :
  (length (randomRoute.buf r) <= randomRouteBuffer)%nat ->
  length (randomRoute.buf (randomRoute.add r n))
  = Nat.min randomRouteBuffer (length (randomRoute.buf r) + 1).
Proof.
  intros Hlen. unfold randomRoute.add. case_decide.
  - cbn [randomRoute.buf]. rewrite length_app. cbn [length]. lia.
  - destruct (Intn _ _) as [i g']. cbn [randomRoute.buf]. rewrite length_insert. lia.
Qed.

(** X13: [addFoundNodes] grows a buffer of at most 32 nodes by two nodes,
    by one for a one-element [ns] and not at all for an empty one, up to
    the capacity of 32 and never beyond; while there is room for them the
    new nodes are appended and no node of the buffer is replaced. *)
Theorem addFoundNodes_growth (fuel : nat) r (ns : list (option Node)) r' :
  (length (randomRoute.buf r) <= randomRouteBuffer)%nat ->
  randomRoute.addFoundNodes fuel r ns = Some r' ->
  length (randomRoute.buf r')
  = Nat.min randomRouteBuffer
      (length (randomRoute.buf r) + Nat.min 2 (length ns))
  /\ ((length (randomRoute.buf r) + Nat.min 2 (length ns) <= randomRouteBuffer)%nat ->
      exists added,
        randomRoute.buf r' = randomRoute.buf r ++ added
        /\ length added = Nat.min 2 (length ns)
        /\ forall x, x ∈ added -> x ∈ ns).
Proof.
  intros Hlen Hadd. destruct (addFoundNodes_spec fuel r ns) as (H0 & H1 & H2 & _).
  destruct ns as [| n [| n' ns]].
  - rewrite H0 in Hadd by reflexivity. injection Hadd as <-. cbn [length Nat.min].
    split; [lia |]. intros _. exists []. rewrite app_nil_r.
    split_and!; [reflexivity | reflexivity |]. intros x Hx. inversion Hx.
  - rewrite (H1 n) in Hadd by reflexivity. injection Hadd as <-.
    rewrite add_length_exact by exact Hlen. cbn [length Nat.min].
    split; [reflexivity |].
    intros Hroom. destruct (add_spec r n) as [Happ _].
    rewrite Happ by lia. cbn [randomRoute.buf]. exists [n].
    split_and!; [reflexivity | reflexivity |].
    intros x Hx. exact Hx.
  - destruct (H2 ltac:(cbn [length]; lia) r' Hadd)
      as (i1 & i2 & x1 & x2 & g & _ & Hx1 & Hx2 & ->).
    apply list_elem_of_lookup_2 in Hx1, Hx2.
    pose proof (add_length_exact (randomRoute.mk (randomRoute.buf r) g) x1 Hlen) as Hl1.
    cbn [randomRoute.buf] in Hl1.
    assert (Hle1 : (length (randomRoute.buf
                      (randomRoute.add (randomRoute.mk (randomRoute.buf r) g) x1))
                    <= randomRouteBuffer)%nat) by (rewrite Hl1; lia).
    rewrite (add_length_exact _ x2 Hle1), Hl1. cbn [length Nat.min].
    split; [lia |]. intros Hroom.
    destruct (add_spec (randomRoute.mk (randomRoute.buf r) g) x1) as [Happ1 _].
    cbn [randomRoute.buf randomRoute.rng] in Happ1.
    rewrite Happ1 by lia.
    destruct (add_spec (randomRoute.mk (randomRoute.buf r ++ [x1]) g) x2) as [Happ2 _].
    cbn [randomRoute.buf randomRoute.rng] in Happ2.
    rewrite Happ2 by (rewrite length_app; cbn [length]; lia).
    cbn [randomRoute.buf]. exists [x1; x2]. rewrite <- app_assoc.
    split_and!; [reflexivity | reflexivity |].
    intros x Hx. apply elem_of_cons in Hx as [-> | Hx]; [exact Hx1 |].
    apply list_elem_of_singleton in Hx as ->. exact Hx2.
Qed.

End RandomRouteGrowth.

Lemma addFoundNodes_growth_witness :
  let ns := [Some (testNode 5); Some (testNode 6); None] in
  let r' := default exampleRandomRoute
              (randomRoute.addFoundNodes 2 exampleRandomRoute ns) in
  length (randomRoute.buf r')
  = Nat.min randomRouteBuffer
      (length (randomRoute.buf exampleRandomRoute) + Nat.min 2 (length ns))
  /\ ((length (randomRoute.buf exampleRandomRoute) + Nat.min 2 (length ns)
       <= randomRouteBuffer)%nat ->
      exists added,
        randomRoute.buf r' = randomRoute.buf exampleRandomRoute ++ added
        /\ length added = Nat.min 2 (length ns)
        /\ forall x, x ∈ added -> x ∈ ns).
Proof.
  apply (addFoundNodes_growth 2 exampleRandomRoute
           [Some (testNode 5); Some (testNode 6); None]).
  - vm_compute. lia.
  - reflexivity.
Defined.

(** ** The lookup route on its own *)

Lemma firstUnasked_spec (asked : gmap Z bool) (es : list Node) :
  match lookupRoute.firstUnasked asked es with
  | Some n =>
      exists es1 es2,
        es = es1 ++ n :: es2
        /\ (forall e, e ∈ es1 -> seen_has asked (nodeID e) = true)
        /\ seen_has asked (nodeID n) = false
  | None => forall e, e ∈ es -> seen_has asked (nodeID e) = true
  end.
Proof.
  induction es as [| e es IH]; simpl.
  - intros x Hx. inversion Hx.
  - destruct (seen_has asked (nodeID e)) eqn:He.
    + destruct (lookupRoute.firstUnasked asked es) as [n |].
      * destruct IH as (es1 & es2 & -> & Hasked & Hn).
        exists (e :: es1), es2. split_and!; [reflexivity | | exact Hn].
        intros x Hx. apply elem_of_cons in Hx as [-> | Hx]; [exact He | apply Hasked, Hx].
      * intros x Hx. apply elem_of_cons in Hx as [-> | Hx]; [exact He | apply IH, Hx].
    + exists [], es. split_and!; [reflexivity | | exact He].
      intros x Hx. inversion Hx.
Qed.

Lemma lookupRoute_nextHop_asked (l l' : lookupRoute.t) (hop : option Node)
    (tgt : Target) :
  lookupRoute.nextHop l = (l', (hop, tgt)) ->
  match hop with
  | Some n => lookupRoute.asked l' = <[nodeID n := true]> (lookupRoute.asked l)
  | None =>
      l' = l
      /\ forall e, e ∈ lookupRoute.entries (lookupRoute.list_ l) ->
                   seen_has (lookupRoute.asked l) (nodeID e) = true
  end.
Proof.
  unfold lookupRoute.nextHop.
  pose proof (firstUnasked_spec (lookupRoute.asked l)
                (lookupRoute.entries (lookupRoute.list_ l))) as Hspec.
  destruct (lookupRoute.firstUnasked _ _) as [n |]; intros [= <- <- <-]; simpl.
  - reflexivity.
  - split; [reflexivity | exact Hspec].
Qed.

(** X14: on a lookup route that [init] has initialised, [nextHop]
    attaches the target of the route and leaves the list alone.  It
    answers the first entry of the list whose id is not asked, every
    entry before it being asked, and marks that id asked; it answers
    nil, changing nothing, exactly when every entry is asked.  The route
    it leaves is initialised as well. *)
Theorem lookup_nextHop_first_unasked (l l' : lookupRoute.t) (hop : option Node)
    (tgt : Target) :
  lookupInited l ->
  lookupRoute.nextHop l = (l', (hop, tgt)) ->
  lookupInited l'
  /\ tgt = lookupRoute.target l
  /\ lookupRoute.target l' = lookupRoute.target l
  /\ lookupRoute.list_ l' = lookupRoute.list_ l
  /\ match hop with
     | Some n =>
         (exists es1 es2,
            lookupRoute.entries (lookupRoute.list_ l) = es1 ++ n :: es2
            /\ (forall e, e ∈ es1 -> seen_has (lookupRoute.asked l) (nodeID e) = true)
            /\ seen_has (lookupRoute.asked l) (nodeID n) = false)
         /\ lookupRoute.asked l' = <[nodeID n := true]> (lookupRoute.asked l)
     | None =>
         l' = l
         /\ forall e, e ∈ lookupRoute.entries (lookupRoute.list_ l) ->
                      seen_has (lookupRoute.asked l) (nodeID e) = true
     end.
Proof.
  intros Hinit Hnext.
  split; [exact (lookupInited_nextHop l l' hop tgt Hinit Hnext) |].
  revert Hnext. unfold lookupRoute.nextHop.
  pose proof (firstUnasked_spec (lookupRoute.asked l)
                (lookupRoute.entries (lookupRoute.list_ l))) as Hspec.
  destruct (lookupRoute.firstUnasked _ _) as [n |]; intros [= <- <- <-]; simpl;
    split_and!; try reflexivity; exact Hspec.
Qed.

Lemma lookup_nextHop_first_unasked_witness :
  let l := (lookupRoute.init (lookupRoute.newLookupRouteV5 9) exampleTable).1 in
  let l' := (lookupRoute.nextHop l).1 in
  let hop := (lookupRoute.nextHop l).2.1 in
  let tgt := (lookupRoute.nextHop l).2.2 in
  lookupInited l
  /\ lookupInited l'
  /\ tgt = lookupRoute.target l
  /\ lookupRoute.target l' = lookupRoute.target l
  /\ lookupRoute.list_ l' = lookupRoute.list_ l
  /\ match hop with
     | Some n =>
         (exists es1 es2,
            lookupRoute.entries (lookupRoute.list_ l) = es1 ++ n :: es2
            /\ (forall e, e ∈ es1 -> seen_has (lookupRoute.asked l) (nodeID e) = true)
            /\ seen_has (lookupRoute.asked l) (nodeID n) = false)
         /\ lookupRoute.asked l' = <[nodeID n := true]> (lookupRoute.asked l)
     | None =>
         l' = l
         /\ forall e, e ∈ lookupRoute.entries (lookupRoute.list_ l) ->
                      seen_has (lookupRoute.asked l) (nodeID e) = true
     end.
Proof.
  split.
  - exact (lookupInited_init (lookupRoute.newLookupRouteV5 9) exampleTable _ eq_refl).
  - exact (lookup_nextHop_first_unasked
             (lookupRoute.init (lookupRoute.newLookupRouteV5 9) exampleTable).1
             _ _ _
             (lookupInited_init (lookupRoute.newLookupRouteV5 9) exampleTable _ eq_refl)
             eq_refl).
Defined.

(** In an inited lookup walk every asked id is the id of a hop. *)
Lemma lookup_asked_are_hops {Rng : Type} (tab0 : Table Rng) (r0 : lookupRoute.t)
    (w : walk Rng lookupRoute.t) (pending : list query) (h : list event) :
  reachable tab0 r0 w pending h ->
  inited w = true ->
  forall id, seen_has (lookupRoute.asked (route w)) id = true ->
             id ∈ ptr_ids (hop_nodes h).
Proof.
  induction 1 as [| w pending h w' oq done _ IH Hadv
                  | w p1 q0 p2 h q w' _ IH _ _ Hh].
  - discriminate.
  - intros Hi'. rewrite hop_nodes_app, ptr_ids_app.
    apply advance_step in Hadv
      as [(_ & _ & _ & _ & He) | (w1 & Hhop & _ & _ & _ & _ & Hi1 & Hw1)];
      [rewrite He in Hi'; discriminate Hi' |].
    assert (H1 : forall id, seen_has (lookupRoute.asked (route w1)) id = true ->
                            id ∈ ptr_ids (hop_nodes h)).
    { destruct Hw1 as [[Hi ->] | [_ Hinit]]; [exact (IH Hi) |].
      simpl in Hinit. unfold lookupRoute.init in Hinit.
      case_decide; [discriminate |]. injection Hinit as <-.
      simpl. intros id Hid. unfold seen_has in Hid.
      rewrite lookup_empty in Hid. discriminate Hid. }
    apply advance_hop_step in Hhop as (_ & _ & _ & _ & _ & Hoq).
    intros id Hid. apply elem_of_app.
    destruct oq as [q |].
    + destruct Hoq as (_ & _ & Hnext & _).
      apply lookupRoute_nextHop_asked in Hnext as Hhop.
      destruct (node q) as [n |] eqn:Hn.
      * rename Hhop into Hasked. rewrite Hasked in Hid.
        apply seen_has_insert in Hid as [-> | Hid]; [| left; apply H1, Hid].
        right. simpl. rewrite Hn. simpl. left.
      * destruct Hhop as [Hsame _]. rewrite Hsame in Hid. left. apply H1, Hid.
    + left. destruct Hoq as (_ & Hfull & Hnext).
      destruct (decide (queries w1 >= alpha)) as [Hge | Hlt].
      * rewrite (Hfull Hge) in Hid. apply H1, Hid.
      * destruct Hnext as [tgt Hnext]; [lia |].
        apply lookupRoute_nextHop_asked in Hnext as (Hsame & _).
        rewrite Hsame in Hid. apply H1, Hid.
  - intros Hi'. rewrite hop_nodes_app. simpl. rewrite app_nil_r.
    apply handleResponse_step in Hh as (_ & Hadd & _ & Hi & _).
    simpl in Hadd. unfold lookupRoute.addFoundNodes in Hadd.
    destruct (lookupRoute.pushAll _ _) as [l' |]; [| discriminate].
    injection Hadd as Hr'. rewrite <- Hr'. simpl. apply IH. congruence.
Qed.

(** X15: when the [advance] of an inited lookup walk answers
    [done = true], no query was emitted or is in flight, and every node of
    the route's list, which is the result of the walk, is asked and was
    queried by this walk. *)
Theorem lookup_walk_done_all_asked {Rng : Type} (tab0 : Table Rng)
    (r0 : lookupRoute.t) (w : walk Rng lookupRoute.t) (pending : list query)
    (h : list event) (w' : walk Rng lookupRoute.t) (oq : option query) :
  reachable tab0 r0 w pending h ->
  advance w = (w', (oq, true)) ->
  inited w' = true ->
  oq = None /\ queries w' = 0
  /\ forall e, e ∈ lookupRoute.entries (lookupRoute.list_ (route w')) ->
       seen_has (lookupRoute.asked (route w')) (nodeID e) = true
       /\ nodeID e ∈ ptr_ids (hop_nodes h).
Proof.
  intros Hreach Hadv Hi'.
  pose proof (reach_advance _ _ _ _ _ _ _ _ Hreach Hadv) as Hreach'.
  pose proof (lookup_asked_are_hops _ _ _ _ _ Hreach' Hi') as Hhops.
  destruct (reachable_counter _ _ _ _ _ Hreach) as (Hcount & _).
  apply advance_step in Hadv
    as [(_ & _ & _ & _ & He) | (w1 & Hhop & _ & _ & _ & Hq1 & _ & _)];
    [rewrite He in Hi'; discriminate Hi' |].
  apply advance_hop_step in Hhop as (_ & _ & _ & _ & Hdone & Hoq).
  destruct (decide (queries w1 >= alpha)) as [Hge | Hlt]; [discriminate Hdone |].
  symmetry in Hdone. apply bool_decide_eq_true in Hdone.
  destruct oq as [q |]; [destruct Hoq as (_ & Hq' & _); lia |].
  destruct Hoq as (_ & _ & Hnext). destruct Hnext as [tgt Hnext]; [lia |].
  apply lookupRoute_nextHop_asked in Hnext as (Hsame & Hasked).
  rewrite hop_nodes_app in Hhops. simpl in Hhops. rewrite app_nil_r in Hhops.
  split; [reflexivity |]. split; [exact Hdone |].
  intros e He. rewrite Hsame in He |- *.
  split; [apply Hasked, He |]. apply Hhops. rewrite Hsame. apply Hasked, He.
Qed.

Lemma exampleLookupWalk4_reachable :
  reachable exampleTable (lookupRoute.newLookupRouteV5 9) exampleLookupWalk4 []
            exampleLookupHistory4.
Proof.
  exact (reach_handle exampleTable (lookupRoute.newLookupRouteV5 9)
           exampleLookupWalk3 [] (exampleLookupQuery 2) [] _
           (exampleLookupQuery 2) exampleLookupWalk4
           (reach_handle exampleTable (lookupRoute.newLookupRouteV5 9)
              exampleLookupWalk2 [] (exampleLookupQuery 1) [exampleLookupQuery 2] _
              (exampleLookupQuery 1) exampleLookupWalk3
              (reach_advance exampleTable (lookupRoute.newLookupRouteV5 9)
                 exampleLookupWalk1 [exampleLookupQuery 1] exampleLookupHistory1
                 exampleLookupWalk2 (Some (exampleLookupQuery 2)) false
                 exampleLookupWalk1_reachable eq_refl)
              eq_refl eq_refl eq_refl)
           eq_refl eq_refl eq_refl).
Defined.

Lemma lookup_walk_done_all_asked_witness :
  (advance exampleLookupWalk4).2.1 = None
  /\ queries (advance exampleLookupWalk4).1 = 0
  /\ forall e,
       e ∈ lookupRoute.entries (lookupRoute.list_ (route (advance exampleLookupWalk4).1)) ->
       seen_has (lookupRoute.asked (route (advance exampleLookupWalk4).1)) (nodeID e) = true
       /\ nodeID e ∈ ptr_ids (hop_nodes exampleLookupHistory4).
Proof.
  exact (lookup_walk_done_all_asked exampleTable (lookupRoute.newLookupRouteV5 9)
           exampleLookupWalk4 [] exampleLookupHistory4
           (advance exampleLookupWalk4).1 (advance exampleLookupWalk4).2.1
           exampleLookupWalk4_reachable eq_refl eq_refl).
Defined.

(** * The random walk against the simulated network *)

Section RandomWalkServed.
Variables (nBuckets : nat) (bucketMinDistance : Z).

Lemma kadReachable_length (n : Node) (kad : routeSim.routeSimKad) :
  routeSim.kadReachable nBuckets bucketMinDistance n kad ->
  length (routeSim.buckets kad) = nBuckets.
Proof.
  induction 1 as [| kad x kad' ok _ IH Hadd]; [apply length_replicate |].
  apply addNode_step in Hadd as (_ & Hno & Hyes).
  destruct ok; [| rewrite (Hno eq_refl); exact IH].
  destruct (Hyes eq_refl) as (_ & b & _ & _ & _ & ->).
  rewrite length_insert. exact IH.
Qed.

Lemma bucket_in_range (kad : routeSim.routeSimKad) (d : Z) :
  0 <= bucketMinDistance < 256 ->
  Z.of_nat nBuckets = 256 - bucketMinDistance ->
  length (routeSim.buckets kad) = nBuckets ->
  0 <= d <= 256 ->
  is_Some (routeSim.bucket bucketMinDistance kad d).
Proof.
  intros Hmin Hn Hlen Hd. unfold routeSim.bucket, routeSim.bucketIndex.
  apply lookup_lt_is_Some. rewrite Hlen. case_decide; lia.
Qed.

(** X16: the payload of a v5 random walk, the distances
    [256, 255, 254, 253], names buckets that exist when there are
    [256 - bucketMinDistance] of them.  So in a well-formed simulated
    network the transport serves every query such a walk emits for a node
    of the network: it sets no error and answers the first [bucketSize]
    nodes of the four furthest buckets of that node. *)
Theorem random_v5_query_is_served {Rng : Type} `{!RandomSource Rng}
    (keyID : list Z -> enode.ID) (rs : routeSim.t)
    (r r' : randomRoute.randomRouteV5 Rng) (n : Node) (tgt : Target)
    (kad : routeSim.routeSimKad) :
  0 <= bucketMinDistance < 256 ->
  Z.of_nat nBuckets = 256 - bucketMinDistance ->
  networkOk nBuckets bucketMinDistance rs ->
  randomRoute.nextHopV5 r = (r', (Some n, tgt)) ->
  routeSim.network rs !! nodeID n = Some kad ->
  routeSim.runLookupQuery bucketMinDistance keyID rs (mkQuery tgt (Some n) None [])
  = Some (mkQuery tgt (Some n) None
            (Some <$> take bucketSize
                        (flat_map (fun d => default []
                                     (routeSim.bucket bucketMinDistance kad d))
                                  [256; 255; 254; 253]))).
Proof.
  intros Hmin Hn Hok Hnext Hkad.
  unfold randomRoute.nextHopV5 in Hnext.
  destruct (randomRoute.nextNode (randomRoute.baseV5 r)) as [b hop].
  injection Hnext as _ _ <-.
  destruct (Hok _ _ Hkad) as [_ Hreach].
  pose proof (kadReachable_length _ _ Hreach) as Hlen.
  unfold routeSim.runLookupQuery. simpl. rewrite Hkad.
  unfold routeSim.getBucketNodes. case_decide; [unfold bucketSize in *; lia |].
  rewrite (getBucketNodes_loop_spec bucketMinDistance kad (Z.of_nat bucketSize)
             [256; 255; 254; 253] []).
  - rewrite Nat2Z.id. reflexivity.
  - simpl. lia.
  - intros d Hd. apply bucket_in_range; try assumption.
    repeat (apply elem_of_cons in Hd as [-> | Hd]; [lia |]). inversion Hd.
Qed.

End RandomWalkServed.

Lemma exampleSim1_well_formed : networkOk 17 239 exampleSim1.
Proof.
  intros id kad Hkad. change (routeSim.network exampleSim1)
    with (<[1 := routeSim.mkKad (testNode 1) (replicate 17 [])]>
            (∅ : gmap Z routeSim.routeSimKad)) in Hkad.
  apply lookup_insert_Some in Hkad as [[<- <-] | [_ Hkad]].
  - split; [reflexivity | apply routeSim.kad_new].
  - rewrite lookup_empty in Hkad. discriminate.
Defined.

Lemma random_v5_query_is_served_witness :
  routeSim.runLookupQuery 239 (fun _ => 0) exampleSim1
    (mkQuery (TargetDists [256; 255; 254; 253]) (Some (testNode 1)) None [])
  = Some (mkQuery (TargetDists [256; 255; 254; 253]) (Some (testNode 1)) None
            (Some <$> take bucketSize
                        (flat_map (fun d => default []
                                     (routeSim.bucket 239
                                        (routeSim.mkKad (testNode 1) (replicate 17 [])) d))
                                  [256; 255; 254; 253]))).
Proof.
  apply (random_v5_query_is_served 17 239 (fun _ => 0) exampleSim1
           (randomRoute.mkV5 exampleRandomRoute)
           (randomRoute.nextHopV5 (randomRoute.mkV5 exampleRandomRoute)).1).
  - lia.
  - reflexivity.
  - exact exampleSim1_well_formed.
  - reflexivity.
  - reflexivity.
Defined.

(** * The simulated network under [add] and [crossConnect] *)

Section RouteSimNetwork.
Variables (nBuckets : nat) (bucketMinDistance : Z).
Implicit Types (kad : routeSim.routeSimKad) (rs : routeSim.t).

Lemma LogDist_zero (a b : enode.ID) : enode.LogDist a b = 0 -> a = b.
Proof.
  unfold enode.LogDist, enode.leading_zero_bits.
  case_decide; [tauto |]. case_decide as Hx.
  - apply Z.lxor_eq in Hx. contradiction.
  - pose proof (Z.log2_nonneg (Z.lxor a b)). lia.
Qed.

(** [addNode] returns when the array has a bucket for every distance. *)
Lemma addNode_returns kad (x : Node) :
  0 <= bucketMinDistance < 256 ->
  Z.of_nat nBuckets = 256 - bucketMinDistance ->
  length (routeSim.buckets kad) = nBuckets ->
  enode.validID (nodeID x) -> enode.validID (nodeID (routeSim.self kad)) ->
  is_Some (routeSim.addNode bucketMinDistance kad x).
Proof.
  intros Hmin Hn Hlen Hx Hs. unfold routeSim.addNode.
  case_decide; [eauto |].
  destruct (bucket_in_range nBuckets bucketMinDistance kad
              (enode.LogDist (nodeID x) (nodeID (routeSim.self kad)))
              Hmin Hn Hlen (LogDist_range _ _ Hx Hs)) as [b ->].
  case_decide; [eauto |]. destruct (existsb _ b); eauto.
Qed.

(** After [addNode] the table has registered the node, whatever the
    answer was. *)
Lemma addNode_registers kad (x : Node) kad' ok :
  nodeID x <> nodeID (routeSim.self kad) ->
  routeSim.addNode bucketMinDistance kad x = Some (kad', ok) ->
  knows bucketMinDistance kad' (nodeID x).
Proof.
  intros Hne. unfold routeSim.addNode, knows.
  case_decide as Hd; [apply LogDist_zero in Hd; contradiction |].
  destruct (routeSim.bucket _ _ _) as [b |] eqn:Hb; [| discriminate].
  case_decide as Hlen; [intros [= <- <-]; exists b; split; [exact Hb | now right] |].
  destruct (existsb _ b) eqn:Hex.
  - intros [= <- <-]. exists b. split; [exact Hb | left].
    apply existsb_exists in Hex as (e & He & Hid).
    apply bool_decide_eq_true in Hid. rewrite <- Hid.
    apply list_elem_of_fmap_2, list_elem_of_In, He.
  - intros [= <- <-]. exists (b ++ [x]). cbn [routeSim.self routeSim.buckets].
    split; [| left; rewrite fmap_app; apply elem_of_app; right; apply list_elem_of_here].
    unfold routeSim.bucket in *. cbn [routeSim.buckets].
    apply list_lookup_insert_eq. eapply lookup_lt_Some, Hb.
Qed.

Lemma connect_returns rs (n1 n2 : enode.ID) :
  0 <= bucketMinDistance < 256 ->
  Z.of_nat nBuckets = 256 - bucketMinDistance ->
  networkOk nBuckets bucketMinDistance rs ->
  enode.validID n1 -> enode.validID n2 -> n1 <> n2 ->
  is_Some (routeSim.network rs !! n1) -> is_Some (routeSim.network rs !! n2) ->
  is_Some (routeSim.connect bucketMinDistance rs n1 n2).
Proof.
  intros Hmin Hn Hok Hv1 Hv2 Hne [tab1 H1] [kad2 H2]. unfold routeSim.connect.
  case_decide; [contradiction |]. rewrite H1, H2.
  destruct (Hok _ _ H1) as [Hs1 Hr1]. destruct (Hok _ _ H2) as [Hs2 _].
  destruct (addNode_returns tab1 (routeSim.self kad2) Hmin Hn
              (kadReachable_length _ _ _ _ Hr1)) as [[tab1' ok] ->].
  - rewrite Hs2. exact Hv2.
  - rewrite Hs1. exact Hv1.
  - eauto.
Qed.

(** [connect] changes the table of [n1] alone, which then has registered
    [n2]. *)
Lemma connect_registers rs (n1 n2 : enode.ID) rs' :
  networkOk nBuckets bucketMinDistance rs ->
  routeSim.connect bucketMinDistance rs n1 n2 = Some rs' ->
  (exists kad1', routeSim.network rs' !! n1 = Some kad1'
                 /\ knows bucketMinDistance kad1' n2)
  /\ (forall id, id <> n1 -> routeSim.network rs' !! id = routeSim.network rs !! id).
Proof.
  intros Hok Hc.
  apply connect_step in Hc as (Hne & _ & tab1 & kad2 & tab1' & ok & H1 & H2 & Hadd & Hnet).
  destruct (Hok _ _ H1) as [Hs1 _]. destruct (Hok _ _ H2) as [Hs2 _].
  split.
  - exists tab1'. rewrite Hnet, lookup_insert_eq. split; [reflexivity |].
    rewrite <- Hs2. eapply addNode_registers; [| exact Hadd]. congruence.
  - intros id Hid. rewrite Hnet. apply lookup_insert_ne. congruence.
Qed.

(** X11: [add] and [crossConnect] keep a simulated network well formed:
    every table stays filed under the id of its own node and stays a
    table built by [addNode].  [add] returns exactly for a node whose id
    is not taken, files an empty table for it and panics for an id that
    is taken.  [crossConnect] panics for a node and itself and for a node
    that is not in the network; for two distinct nodes of the network it
    returns when the tables have a bucket for every distance, changes
    neither the ids nor the set of nodes nor the table of a third node,
    and leaves each of the two nodes registered in the table of the
    other: in the bucket for its distance, unless that bucket is full. *)
Theorem network_stays_well_formed rs :
  networkOk nBuckets bucketMinDistance rs ->
  (forall n rs',
     routeSim.add nBuckets rs n = Some rs' ->
     networkOk nBuckets bucketMinDistance rs'
     /\ routeSim.network rs !! nodeID n = None
     /\ routeSim.network rs' !! nodeID n
        = Some (routeSim.mkKad n (replicate nBuckets []))
     /\ routeSim.add nBuckets rs' n = None)
  /\ (forall n1 n2 rs',
        routeSim.crossConnect bucketMinDistance rs n1 n2 = Some rs' ->
        networkOk nBuckets bucketMinDistance rs'
        /\ n1 <> n2
        /\ routeSim.ids rs' = routeSim.ids rs
        /\ (forall id, is_Some (routeSim.network rs' !! id)
                       <-> is_Some (routeSim.network rs !! id)))
  /\ (forall n, routeSim.crossConnect bucketMinDistance rs n n = None)
  /\ (forall n, routeSim.network rs !! nodeID n = None ->
                is_Some (routeSim.add nBuckets rs n))
  /\ (forall n, is_Some (routeSim.network rs !! nodeID n) ->
                routeSim.add nBuckets rs n = None)
  /\ (0 <= bucketMinDistance < 256 ->
      Z.of_nat nBuckets = 256 - bucketMinDistance ->
      forall n1 n2,
        enode.validID n1 -> enode.validID n2 -> n1 <> n2 ->
        is_Some (routeSim.network rs !! n1) -> is_Some (routeSim.network rs !! n2) ->
        is_Some (routeSim.crossConnect bucketMinDistance rs n1 n2))
  /\ (forall n1 n2,
        routeSim.network rs !! n1 = None \/ routeSim.network rs !! n2 = None ->
        routeSim.crossConnect bucketMinDistance rs n1 n2 = None)
  /\ (forall n1 n2 rs',
        routeSim.crossConnect bucketMinDistance rs n1 n2 = Some rs' ->
        (exists kad1' kad2',
           routeSim.network rs' !! n1 = Some kad1'
           /\ routeSim.network rs' !! n2 = Some kad2'
           /\ knows bucketMinDistance kad1' n2
           /\ knows bucketMinDistance kad2' n1)
        /\ (forall id, id <> n1 -> id <> n2 ->
               routeSim.network rs' !! id = routeSim.network rs !! id)).
Proof.
  intros Hok. split_and!.
  - intros n rs'. unfold routeSim.add.
    destruct (routeSim.network rs !! nodeID n) as [kad |] eqn:Hn; [discriminate |].
    intros [= <-]. simpl. split_and!; [| reflexivity | apply lookup_insert_eq |].
    + intros id kad. simpl. destruct (decide (nodeID n = id)) as [<- | Hid].
      * rewrite lookup_insert_eq. intros [= <-]. simpl. split; [reflexivity |].
        apply routeSim.kad_new.
      * rewrite lookup_insert_ne by exact Hid. apply Hok.
    + simpl. rewrite lookup_insert_eq. reflexivity.
  - intros n1 n2 rs'. unfold routeSim.crossConnect.
    destruct (routeSim.connect bucketMinDistance rs n1 n2) as [rs1 |] eqn:H1;
      [| discriminate].
    intros H2.
    destruct (connect_keeps_network _ _ _ _ _ _ Hok H1) as (Hok1 & Hne & Hids1 & Hdom1).
    destruct (connect_keeps_network _ _ _ _ _ _ Hok1 H2) as (Hok2 & _ & Hids2 & Hdom2).
    split_and!; [exact Hok2 | exact Hne | congruence |].
    intros id. rewrite Hdom2. apply Hdom1.
  - intros n. unfold routeSim.crossConnect, routeSim.connect.
    case_decide; [reflexivity | contradiction].
  - intros n Hn. unfold routeSim.add. rewrite Hn. eauto.
  - intros n [kad Hn]. unfold routeSim.add. rewrite Hn. reflexivity.
  - intros Hmin Hn n1 n2 Hv1 Hv2 Hne Hin1 Hin2. unfold routeSim.crossConnect.
    destruct (connect_returns rs n1 n2 Hmin Hn Hok Hv1 Hv2 Hne Hin1 Hin2) as [rs1 H1].
    rewrite H1.
    destruct (connect_keeps_network _ _ _ _ _ _ Hok H1) as (Hok1 & _ & _ & Hdom1).
    apply connect_returns; try assumption; [congruence | |]; apply Hdom1; assumption.
  - intros n1 n2 Hmiss. unfold routeSim.crossConnect, routeSim.connect.
    case_decide; [reflexivity |].
    destruct (routeSim.network rs !! n1) as [tab1 |] eqn:H1; [| reflexivity].
    destruct (routeSim.network rs !! n2) as [kad2 |] eqn:H2; [| reflexivity].
    destruct Hmiss; discriminate.
  - intros n1 n2 rs'. unfold routeSim.crossConnect.
    destruct (routeSim.connect bucketMinDistance rs n1 n2) as [rs1 |] eqn:H1;
      [| discriminate].
    intros H2.
    destruct (connect_keeps_network _ _ _ _ _ _ Hok H1) as (Hok1 & Hne & _ & _).
    destruct (connect_registers _ _ _ _ Hok H1) as ((kad1' & Hk1 & Hknows1) & Hrest1).
    destruct (connect_registers _ _ _ _ Hok1 H2) as ((kad2' & Hk2 & Hknows2) & Hrest2).
    split.
    + exists kad1', kad2'. split_and!; [| exact Hk2 | exact Hknows1 | exact Hknows2].
      rewrite Hrest2 by exact Hne. exact Hk1.
    + intros id Hid1 Hid2. rewrite Hrest2 by exact Hid2. apply Hrest1, Hid1.
Qed.

End RouteSimNetwork.

Lemma exampleSim2_well_formed : networkOk 17 239 exampleSim2.
Proof.
  intros id kad Hkad. change (routeSim.network exampleSim2)
    with (<[2 := routeSim.mkKad (testNode 2) (replicate 17 [])]>
            (<[1 := routeSim.mkKad (testNode 1) (replicate 17 [])]>
               (∅ : gmap Z routeSim.routeSimKad))) in Hkad.
  apply lookup_insert_Some in Hkad as [[<- <-] | [_ Hkad]];
    [split; [reflexivity | apply routeSim.kad_new] |].
  apply lookup_insert_Some in Hkad as [[<- <-] | [_ Hkad]];
    [split; [reflexivity | apply routeSim.kad_new] |].
  rewrite lookup_empty in Hkad. discriminate.
Defined.

Lemma network_stays_well_formed_witness :
  networkOk 17 239 exampleSim2
  /\ is_Some (routeSim.add 17 exampleSim2 (testNode 3))
  /\ routeSim.add 17 exampleSim2 (testNode 1) = None
  /\ routeSim.crossConnect 239 exampleSim2 1 1 = None
  /\ routeSim.crossConnect 239 exampleSim2 1 3 = None
  /\ exists rs',
       routeSim.crossConnect 239 exampleSim2 1 2 = Some rs'
       /\ networkOk 17 239 rs'
       /\ routeSim.ids rs' = routeSim.ids exampleSim2
       /\ (forall id, is_Some (routeSim.network rs' !! id)
                      <-> is_Some (routeSim.network exampleSim2 !! id))
       /\ exists kad1' kad2',
            routeSim.network rs' !! 1 = Some kad1'
            /\ routeSim.network rs' !! 2 = Some kad2'
            /\ knows 239 kad1' 2
            /\ knows 239 kad2' 1.
Proof.
  destruct (network_stays_well_formed 17 239 exampleSim2 exampleSim2_well_formed)
    as (_ & Hcross & Hself & Hadd & Htaken & Hreturns & Hmissing & Heffect).
  split; [exact exampleSim2_well_formed |].
  split; [apply Hadd; reflexivity |].
  split; [apply Htaken; eexists; reflexivity |].
  split; [apply Hself |].
  split; [apply Hmissing; right; reflexivity |].
  destruct (Hreturns ltac:(lia) eq_refl 1 2) as [rs' Hrs'].
  - split; [lia | reflexivity].
  - split; [lia | reflexivity].
  - lia.
  - eexists; reflexivity.
  - eexists; reflexivity.
  - exists rs'. split; [exact Hrs' |].
    destruct (Hcross 1 2 rs' Hrs') as (Hok' & _ & Hids & Hdom).
    destruct (Heffect 1 2 rs' Hrs') as [Hknows _].
    split_and!; [exact Hok' | exact Hids | exact Hdom | exact Hknows].
Defined.
